(** * Star-schema SQL rewriting in the DuckDB backend

    A shallow embedding of [Backend.register_schema] and
    [Backend.rewrite_sql] of [ibis/backends/duckdb/__init__.py], with the
    properties of the schema registry, the reference extractor, the join-set
    planner, the FROM-clause rewriter and the rewrite driver. *)

From stdpp Require Import base strings list gmap fin_maps.

Local Open Scope string_scope.

(** ** Python values *)

(** [sep.join(l)] of Python's [str]. *)
Fixpoint join (sep : string) (l : list string) : string :=
  match l with
  | [] => ""
  | x :: l' =>
      match l' with
      | [] => x
      | _ :: _ => x +:+ sep +:+ join sep l'
      end
  end.

(** A Python [set] of [str] that is only ever grown with [add]: the distinct
    elements, kept in the order of their first insertion. *)
Module PySet.
Definition empty : list string := [].

Definition add (x : string) (s : list string) : list string :=
  if decide (x ∈ s) then s else s ++ [x].

Definition len (s : list string) : nat := length s.
End PySet.

(** The order in which [for x in s] and [sep.join(s)] enumerate a set is
    fixed by the interpreter (the hashes of the elements), not by the
    program: all the program may rely on is that every element comes once. *)
Class SetOrder := {
  set_iter : list string → list string;
  set_iter_perm : ∀ s, set_iter s ≡ₚ s
}.

(** Two enumeration orders, both legal. *)
Definition insertion_order : SetOrder :=
  {| set_iter := λ s, s; set_iter_perm := λ s, reflexivity s |}.

Definition reverse_order : SetOrder :=
  {| set_iter := reverse; set_iter_perm := reverse_Permutation |}.

(** Exceptions that leave [rewrite_sql]. *)
Inductive exn :=
| KeyError (key : string)
| ParseError (text : string).

Inductive result (A : Type) :=
| Ok (a : A)
| Raise (e : exn).
Arguments Ok {A} a.
Arguments Raise {A} e.

#[global] Instance result_ret : MRet result := λ A a, Ok a.

#[global] Instance result_bind : MBind result := λ A B k r,
  match r with
  | Ok a => k a
  | Raise e => Raise e
  end.

(** [d[k]]: a missing key raises [KeyError]. *)
Definition getitem {V} (d : gmap string V) (k : string) : result V :=
  match d !! k with
  | Some v => Ok v
  | None => Raise (KeyError k)
  end.

(** ** The data model *)

(** One entry of [override_schemas]: the dict with the keys ['fact'],
    ['dimension_tables'] (dimension table to joining key) and
    ['col_to_table_map'] (column to the table that stores it). *)
Record Schema := {
  fact : string;
  dimension_tables : gmap string string;
  col_to_table_map : gmap string string
}.

(** The backend object, reduced to the registry it carries. *)
Record Backend := {
  override_schemas : gmap string Schema
}.

(** ** The query tree *)

(** Modelled from the spec: the tree of the SQL parser library, which is not
    part of the source. Node kinds form a closed sum: FROM nodes carrying a
    table name and an alias, column references carrying a column name and a
    table qualifier, and every other node. As in the library a missing name,
    alias or qualifier is the empty string; a FROM node over a subquery has
    the empty name and the subquery among its [args]. *)
Unset Elimination Schemes.
Inductive Expression :=
| From (name alias : string) (args : list Expression)
| Column (name table : string)
| Node (kind : string) (args : list Expression).
Set Elimination Schemes.

Section Expression_ind.
Variable P : Expression → Prop.
Hypothesis HFrom : ∀ name alias args,
  Forall P args → P (From name alias args).
Hypothesis HColumn : ∀ name table, P (Column name table).
Hypothesis HNode : ∀ kind args, Forall P args → P (Node kind args).

Fixpoint Expression_ind (node : Expression) : P node :=
  let all := fix all (l : list Expression) : Forall P l :=
    match l with
    | [] => Forall_nil_2 P
    | child :: l => Forall_cons_2 P child l (Expression_ind child) (all l)
    end in
  match node with
  | From name alias args => HFrom name alias args (all args)
  | Column name table => HColumn name table
  | Node kind args => HNode kind args (all args)
  end.
End Expression_ind.

(** The library's [node.alias_or_name]: the alias when there is one, the
    name otherwise ([node.alias or node.name]). *)
Definition alias_or_name (node : Expression) : string :=
  match node with
  | From name alias _ => if decide (alias = "") then name else alias
  | Column name _ => name
  | Node _ _ => ""
  end.

Definition args_of (node : Expression) : list Expression :=
  match node with
  | From _ _ args => args
  | Column _ _ => []
  | Node _ args => args
  end.

Definition with_args (node : Expression) (args : list Expression) : Expression :=
  match node with
  | From name alias _ => From name alias args
  | Column name table => Column name table
  | Node kind _ => Node kind args
  end.

(** What a callback handed to [transform] returns: the node it was given
    ([return node]) or another node. *)
Inductive visit :=
| Same
| Replaced (new_node : Expression).

(** Modelled from the spec: the library's [Expression.transform], the
    generic visit of all nodes. The callback sees a node before its
    children; a node the callback replaces is taken as it is and the visit
    does not enter the replacement; otherwise the children are visited from
    left to right. The callback may update the variables [S] it closes over
    and may raise. *)
Section Transform.
Context {S : Type} (fun_ : Expression → S → result (visit * S)).

Fixpoint transform (node : Expression) (s : S) {struct node}
  : result (Expression * S) :=
  match fun_ node s with
  | Raise e => Raise e
  | Ok (Replaced new_node, s) => Ok (new_node, s)
  | Ok (Same, s) =>
      let children :=
        fix children (l : list Expression) (s : S)
          : result (list Expression * S) :=
          match l with
          | [] => Ok ([], s)
          | child :: l =>
              match transform child s with
              | Raise e => Raise e
              | Ok (child, s) =>
                  match children l s with
                  | Raise e => Raise e
                  | Ok (l, s) => Ok (child :: l, s)
                  end
              end
          end in
      match node with
      | From name alias args =>
          match children args s with
          | Raise e => Raise e
          | Ok (args, s) => Ok (From name alias args, s)
          end
      | Column name table => Ok (Column name table, s)
      | Node kind args =>
          match children args s with
          | Raise e => Raise e
          | Ok (args, s) => Ok (Node kind args, s)
          end
      end
  end.

Fixpoint transform_children (l : list Expression) (s : S)
  : result (list Expression * S) :=
  match l with
  | [] => Ok ([], s)
  | child :: l =>
      match transform child s with
      | Raise e => Raise e
      | Ok (child, s) =>
          match transform_children l s with
          | Raise e => Raise e
          | Ok (l, s) => Ok (child :: l, s)
          end
      end
  end.
End Transform.

(** ** The external SQL library

    [optimize] parses and normalises a query text, [parse_one] parses the
    text of one FROM clause ([into=exp.From]), [sql] prints a tree. The first
    two raise on a text they cannot parse. *)
Class SqlGlot := {
  optimize : string → result Expression;
  parse_one : string → result Expression;
  sql : Expression → string
}.

(** ** [Backend.register_schema] (lines 157-159) *)

Definition register_schema (schema : gmap string Schema) (self : Backend)
  : Backend :=
  {| override_schemas :=
       foldl (λ schemas item, <[item.1 := item.2]> schemas)
             (override_schemas self) (map_to_list schema) |}.

(** ** [Backend.rewrite_sql] (lines 161-230) *)

Section Rewrite.
Context {order : SetOrder} {glot : SqlGlot}.

(** The callback collecting [table_names] and [column_names]
    (lines 170-175). *)
Definition get_table_and_column_names (node : Expression)
    (names : list string * list string)
  : result (visit * (list string * list string)) :=
  let '(table_names, column_names) := names in
  let table_names :=
    match node with
    | From name _ _ =>
        if decide (name = "") then table_names
        else PySet.add name table_names
    | _ => table_names
    end in
  let column_names :=
    match node with
    | Column name _ => PySet.add name column_names
    | _ => column_names
    end in
  Ok (Same, (table_names, column_names)).

(** The loop collecting [dim_to_join], the dimension tables to be
    joined (lines 194-202). *)
Definition dim_to_join (schema : Schema) (column_names : list string)
  : list string :=
  foldl (λ dim_to_join col,
           match col_to_table_map schema !! col with
           | None => dim_to_join
           | Some dim_name =>
               if decide (dim_name = fact schema) then dim_to_join
               else PySet.add dim_name dim_to_join
           end)
        PySet.empty (set_iter column_names).

(** The body of the loop [for dim in dim_to_join] (lines 212-213); the
    lookup of the joining key raises [KeyError] for a [dim] that
    [dimension_tables] does not hold. *)
Definition join_string (schema : Schema) (dim : string) : result string :=
  joining_col ← getitem (dimension_tables schema) dim;
  mret (fact schema +:+ "." +:+ joining_col +:+ "=" +:+ dim +:+ "."
        +:+ joining_col).

(** The list [join_clauses] built by that loop (lines 210-214), over the
    dimensions in the order of their enumeration. *)
Fixpoint join_clauses (schema : Schema) (dims : list string)
  : result (list string) :=
  match dims with
  | [] => mret []
  | dim :: dims =>
      join_string ← join_string schema dim;
      join_clauses ← join_clauses schema dims;
      mret (join_string :: join_clauses)
  end.

(** The text of the replacement FROM clause, before the alias
    (lines 204-218). *)
Definition rewrite_string (schema : Schema) (column_names : list string)
  : result string :=
  let dim_to_join := dim_to_join schema column_names in
  if decide (PySet.len dim_to_join = 0) then
    mret ("FROM " +:+ fact schema)
  else
    join_clauses ← join_clauses schema (set_iter dim_to_join);
    let join_clause := join " AND " join_clauses in
    let dim_to_join := PySet.add (fact schema) dim_to_join in
    let table_clause := join "," (set_iter dim_to_join) in
    mret ("FROM (SELECT * FROM " +:+ table_clause +:+ " WHERE "
          +:+ join_clause +:+ ")").

(** The text handed to [parse_one] for a FROM node that is rewritten
    (lines 222-224). *)
Definition updated (rewrite_string : string) (node : Expression) : string :=
  if decide (alias_or_name node = "") then rewrite_string
  else rewrite_string +:+ " AS " +:+ alias_or_name node.

(** The callback replacing the FROM nodes of [table_name]
    (lines 220-226). *)
Definition rewrite_from (table_name rewrite_string : string)
    (node : Expression) (s : unit) : result (visit * unit) :=
  match node with
  | From name _ _ =>
      if decide (name = table_name) then
        new_node ← parse_one (updated rewrite_string node);
        mret (Replaced new_node, s)
      else mret (Same, s)
  | _ => mret (Same, s)
  end.

(** One turn of the loop [for table_name in table_names]
    (lines 185-228). *)
Definition rewrite_table (self : Backend) (column_names : list string)
    (expression_tree : Expression) (table_name : string)
  : result Expression :=
  match override_schemas self !! table_name with
  | None => mret expression_tree
  | Some schema =>
      if decide (size (dimension_tables schema) = 0) then
        mret expression_tree
      else
        rewrite_string ← rewrite_string schema column_names;
        r ← transform (rewrite_from table_name rewrite_string)
              expression_tree ();
        mret r.1
  end.

(** The loop itself, over the table names in the order of their
    enumeration; an exception ends it. *)
Fixpoint rewrite_tables (self : Backend) (column_names : list string)
    (expression_tree : Expression) (table_names : list string)
  : result Expression :=
  match table_names with
  | [] => mret expression_tree
  | table_name :: table_names =>
      expression_tree ←
        rewrite_table self column_names expression_tree table_name;
      rewrite_tables self column_names expression_tree table_names
  end.

(** The reference extractor: the first [transform] of [rewrite_sql],
    started on two empty sets. *)
Definition extract (expression_tree : Expression)
  : result (Expression * (list string * list string)) :=
  transform get_table_and_column_names expression_tree
    (PySet.empty, PySet.empty).

(** [rewrite_sql(self, sql)]: the text returned or the exception raised,
    and the backend after the call. *)
Definition rewrite_sql (sql_text : string) (self : Backend)
  : result string * Backend :=
  (expression_tree ← optimize sql_text;
   r ← extract expression_tree;
   let '(expression_tree, (table_names, column_names)) := r in
   if decide (PySet.len column_names = 0) then mret sql_text
   else
     expression_tree ←
       rewrite_tables self column_names expression_tree
         (set_iter table_names);
     mret (sql expression_tree),
   self).
End Rewrite.

(** ** Vocabulary of the properties *)

(** All the nodes of a tree, each node before its children. *)
Fixpoint nodes (node : Expression) : list Expression :=
  node ::
  match node with
  | From _ _ args => concat (map nodes args)
  | Column _ _ => []
  | Node _ args => concat (map nodes args)
  end.

(** The node reached from [node] by following a path of child indices. *)
Fixpoint get (path : list nat) (node : Expression) : option Expression :=
  match path with
  | [] => Some node
  | i :: path => child ← args_of node !! i; get path child
  end.

(** A node's own content, without its children. *)
Definition head_of (node : Expression) : Expression := with_args node [].

(** The test of [rewrite_from]: a FROM node naming [table_name]. *)
Definition from_of (table_name : string) (node : Expression) : Prop :=
  match node with
  | From name _ _ => name = table_name
  | _ => False
  end.

#[global] Instance from_of_dec table_name node
  : Decision (from_of table_name node).
Proof. destruct node; simpl; apply _. Defined.

(** No node strictly above the end of [path] is a FROM node of
    [table_name]. *)
Fixpoint outside (table_name : string) (path : list nat) (node : Expression)
  : Prop :=
  match path with
  | [] => True
  | i :: path =>
      ¬ from_of table_name node ∧
      match args_of node !! i with
      | Some child => outside table_name path child
      | None => True
      end
  end.

Fixpoint Expression_eq_dec (x y : Expression) {struct x} : Decision (x = y).
Proof.
  refine
    match x, y with
    | From n a l, From n' a' l' =>
        cast_if_and3 (decide (n = n')) (decide (a = a'))
          (@list_eq_dec _ Expression_eq_dec l l')
    | Column n t, Column n' t' =>
        cast_if_and (decide (n = n')) (decide (t = t'))
    | Node k l, Node k' l' =>
        cast_if_and (decide (k = k')) (@list_eq_dec _ Expression_eq_dec l l')
    | _, _ => right _
    end; abstract congruence.
Defined.

#[global] Instance Expression_eq : EqDecision Expression := Expression_eq_dec.

(** The paths of all the FROM nodes of a tree. *)
Fixpoint from_paths (node : Expression) : list (list nat) :=
  let below (args : list Expression) :=
    concat (imap (λ i paths, (i ::.) <$> paths) (map from_paths args)) in
  match node with
  | From _ _ args => [] :: below args
  | Column _ _ => []
  | Node _ args => below args
  end.

(** The FROM nodes of [tree] that are not found again, as they were, at the
    same place of [tree']. *)
Definition replaced_from_nodes (tree tree' : Expression) : list (list nat) :=
  filter (λ path, get path tree ≠ get path tree') (from_paths tree).

(** What a visit of the nodes [visited] adds to the two sets of names: the
    names of the FROM nodes that have one, and the names of the column
    references, whatever their qualifier; the sets stay free of
    duplicates. *)
Definition collected (visited : list Expression)
    (before after : list string * list string) : Prop :=
  (NoDup before.1 → NoDup after.1) ∧
  (NoDup before.2 → NoDup after.2) ∧
  (∀ table_name, table_name ∈ after.1
     ↔ table_name ∈ before.1 ∨
       (table_name ≠ "" ∧
        ∃ alias args, From table_name alias args ∈ visited)) ∧
  (∀ column_name, column_name ∈ after.2
     ↔ column_name ∈ before.2 ∨
       ∃ table, Column column_name table ∈ visited).

(** The invariant of the data model: every owner recorded in
    [col_to_table_map] is the fact table or a key of [dimension_tables]. *)
Definition schema_invariant (schema : Schema) : Prop :=
  map_Forall (λ _ owner, owner = fact schema ∨
                         is_Some (dimension_tables schema !! owner))
    (col_to_table_map schema).

(** The equality conjunct joining [dim] to the fact table on [dim]'s
    joining key. *)
Definition conjunct (schema : Schema) (dim : string) : string :=
  let joining_col := default "" (dimension_tables schema !! dim) in
  fact schema +:+ "." +:+ joining_col +:+ "=" +:+ dim +:+ "." +:+ joining_col.

(** The derived table over a list of tables and a list of dimensions. *)
Definition derived_table (schema : Schema) (tables dims : list string)
  : string :=
  "FROM (SELECT * FROM " +:+ join "," tables +:+ " WHERE "
  +:+ join " AND " (conjunct schema <$> dims) +:+ ")".

(** The derived table as the specification words it: the fact table first,
    then the dimensions of the plan. *)
Definition derived_table_fact_first (schema : Schema) (dims : list string)
  : string :=
  derived_table schema (fact schema :: dims) dims.

(** The alias as the specification words it: the original alias is
    reattached if present, else the FROM term is left unaliased. *)
Definition updated_reattach_alias (rewrite_string : string)
    (node : Expression) : string :=
  match node with
  | From _ alias _ =>
      if decide (alias = "") then rewrite_string
      else rewrite_string +:+ " AS " +:+ alias
  | _ => rewrite_string
  end.

(** ** A worked example: the [accidents] schema of the source's comment *)

Definition accidents_schema : Schema :=
  {| fact := "accidents_fact";
     dimension_tables :=
       {[ "accidents_dim0" := "p0"; "accidents_dim1" := "p1" ]};
     col_to_table_map :=
       {[ "ID" := "accidents_fact"; "Severity" := "accidents_dim1";
          "Side" := "accidents_dim0" ]} |}.

(** A registration without any dimension table. *)
Definition flat_schema : Schema :=
  {| fact := "accidents_flat";
     dimension_tables := ∅;
     col_to_table_map := {[ "ID" := "accidents_flat" ]} |}.

Definition flat_backend : Backend :=
  register_schema {[ "accidents" := flat_schema ]}
    {| override_schemas := ∅ |}.

Definition accidents_backend : Backend :=
  register_schema {[ "accidents" := accidents_schema ]}
    {| override_schemas := ∅ |}.

(** [SELECT * FROM accidents LIMIT 5] *)
Definition select_star : Expression :=
  Node "Select"
    [Node "Star" []; From "accidents" "" [Node "Table" []];
     Node "Limit" [Node "5" []]].

(** [SELECT ID, Severity FROM accidents] *)
Definition select_severity : Expression :=
  Node "Select"
    [Column "ID" ""; Column "Severity" "";
     From "accidents" "" [Node "Table" []]].

(** [SELECT ID FROM accidents UNION SELECT ID FROM accidents] *)
Definition select_union : Expression :=
  Node "Union"
    [Node "Select" [Column "ID" ""; From "accidents" "" [Node "Table" []]];
     Node "Select" [Column "ID" ""; From "accidents" "" [Node "Table" []]]].

(** A stand-in for the SQL library on the three queries above: a parsed FROM
    clause keeps its text, and a tree is printed by its list of nodes. *)
Definition example_optimize (sql_text : string) : result Expression :=
  if decide (sql_text = "SELECT * FROM accidents LIMIT 5") then
    Ok select_star
  else if decide (sql_text = "SELECT ID, Severity FROM accidents") then
    Ok select_severity
  else if decide (sql_text =
                  "SELECT ID FROM accidents UNION SELECT ID FROM accidents")
  then Ok select_union
  else Raise (ParseError sql_text).

Definition example_sql (tree : Expression) : string :=
  join " "
    (omap (λ node, match node with
                   | From EmptyString _ [Node text []] => Some text
                   | From name _ _ => Some ("FROM " +:+ name)
                   | Column name _ => Some name
                   | Node _ _ => None
                   end) (nodes tree)).

Definition example_glot : SqlGlot :=
  {| optimize := example_optimize;
     parse_one := λ text, Ok (From "" "" [Node text []]);
     sql := example_sql |}.

(** * Other parts of the backend *)

(** ** [Backend.register] (lines 489-553) *)

(** [s.startswith(prefixes)] with a tuple of prefixes. *)
Definition startswith (s : string) (prefixes : list string) : bool :=
  existsb (λ prefix, String.prefix prefix s) prefixes.

(** [s] ends with [suffix]: [s] or one of its tails is [suffix]. *)
Fixpoint has_suffix (suffix s : string) : bool :=
  if decide (s = suffix) then true
  else
    match s with
    | EmptyString => false
    | String _ s => has_suffix suffix s
    end.

(** [s.endswith(suffixes)] with a tuple of suffixes. *)
Definition endswith (s : string) (suffixes : list string) : bool :=
  existsb (λ suffix, has_suffix suffix s) suffixes.

(** The slice [s[n:]]. *)
Fixpoint slice_from (n : nat) (s : string) : string :=
  match n, s with
  | 0, _ => s
  | S n, String _ s => slice_from n s
  | S _, EmptyString => EmptyString
  end.

(** The exceptions met in [register]; [OtherError] stands for any other
    exception of a reader. *)
Inductive py_exn :=
| IndexError
| ValueError (msg : string)
| ProgrammingError
| OtherError (name : string).

Inductive outcome (A : Type) :=
| Return (a : A)
| Throw (e : py_exn).
Arguments Return {A} a.
Arguments Throw {A} e.

(** The [source] argument of [register]: a [str] or [Path] (taken by its
    [str]), a list or tuple of [str], or any other object. *)
Inductive Source (Obj : Type) :=
| SourceStr (path : string)
| SourceList (paths : list string)
| SourceObject (obj : Obj).
Arguments SourceStr {Obj} path.
Arguments SourceList {Obj} paths.
Arguments SourceObject {Obj} obj.

(** The reader methods that [register] hands the source to, with the
    [table_name] and the keyword arguments as they were given, and
    [members], the names of the members of the backend object that
    [inspect.getmembers] lists. *)
Class Readers (Obj Kwargs Table : Type) := {
  members : list string;
  read_parquet : Source Obj → option string → Kwargs → outcome Table;
  read_csv : Source Obj → option string → Kwargs → outcome Table;
  read_postgres : Source Obj → option string → Kwargs → outcome Table;
  read_sqlite : string → option string → Kwargs → outcome Table;
  read_in_memory : Obj → option string → Kwargs → outcome Table
}.

Section Register.
Context {Obj Kwargs Table : Type} {readers : Readers Obj Kwargs Table}.

(** [_register_failure] (lines 544-553): always raises. *)
Definition _register_failure : outcome Table :=
  let msg :=
    join ", " (filter (λ name, startswith name ["read_"] = true) members) in
  Throw (ValueError
           ("Cannot infer appropriate read function for input, "
            +:+ "please call one of " +:+ msg +:+ " directly")).

(** The dispatch on [first] (lines 527-542). *)
Definition register_first (first : string) (source : Source Obj)
    (table_name : option string) (kwargs : Kwargs) : outcome Table :=
  if startswith first ["parquet://"; "parq://"]
     || endswith first ["parq"; "parquet"] then
    read_parquet source table_name kwargs
  else if startswith first ["csv://"; "csv.gz://"; "txt://"; "txt.gz://"]
          || endswith first
               ["csv"; "csv.gz"; "tsv"; "tsv.gz"; "txt"; "txt.gz"] then
    read_csv source table_name kwargs
  else if startswith first ["postgres://"; "postgresql://"] then
    read_postgres source table_name kwargs
  else if startswith first ["sqlite://"] then
    read_sqlite (slice_from (String.length "sqlite://") first)
      table_name kwargs
  else _register_failure.

Definition register (source : Source Obj) (table_name : option string)
    (kwargs : Kwargs) : outcome Table :=
  match source with
  | SourceStr path => register_first path source table_name kwargs
  | SourceList paths =>
      match paths with
      | [] => Throw IndexError
      | first :: _ => register_first first source table_name kwargs
      end
  | SourceObject obj =>
      match read_in_memory obj table_name kwargs with
      | Throw ProgrammingError => _register_failure
      | r => r
      end
  end.
End Register.

(** ** The record batch readers (lines 728-757 and 916-932) *)

(** What [read_in_memory] does to [_record_batch_readers_consumed] once the
    source is registered under [table_name]: a [RecordBatchReader] is marked
    as not started, any other source leaves the dict alone. *)
Definition read_in_memory_mark (is_reader : bool) (table_name : string)
    (consumed : gmap string bool) : gmap string bool :=
  if is_reader then <[table_name := false]> consumed else consumed.

(** The loop of [_run_pre_execute_hooks] over the names of the physical
    tables of the expression: the names warned about, in order, and the dict
    after the loop. *)
Fixpoint pre_execute_loop (tables : list string)
    (consumed : gmap string bool) : list string * gmap string bool :=
  match tables with
  | [] => ([], consumed)
  | name :: tables =>
      match consumed !! name with
      | Some true =>
          let '(warned, consumed) := pre_execute_loop tables consumed in
          (name :: warned, consumed)
      | Some false => pre_execute_loop tables (<[name := true]> consumed)
      | None => pre_execute_loop tables consumed
      end
  end.

(** * Flink interval segments ([ibis/backends/flink/utils.py]) *)

(** The interval units this file names. *)
Inductive IntervalUnit :=
| YEAR | MONTH | DAY | HOUR | MINUTE | SECOND | MICROSECOND.

#[global] Instance IntervalUnit_eq_dec : EqDecision IntervalUnit.
Proof. solve_decision. Defined.

(** [interval_segments[unit] = value] on the [defaultdict(int)], read as a
    function that is 0 where nothing was stored. *)
Definition setitem (interval_segments : IntervalUnit → Z)
    (unit : IntervalUnit) (value : Z) : IntervalUnit → Z :=
  λ key, if decide (key = unit) then value else interval_segments key.

(** The loop of [_convert_to_combined_units] (lines 126-131) over
    [zip(units[:-1], factors)], with its [break]: the remainder and the
    segments when the loop is left. *)
Fixpoint combine_loop (pairs : list (IntervalUnit * Z)) (rem : Z)
    (interval_segments : IntervalUnit → Z) : Z * (IntervalUnit → Z) :=
  match pairs with
  | [] => (rem, interval_segments)
  | (unit, factor) :: pairs =>
      let q := (rem `div` factor)%Z in
      let rem := (rem `mod` factor)%Z in
      let interval_segments := setitem interval_segments unit q in
      if decide (rem = 0%Z) then (rem, interval_segments)
      else combine_loop pairs rem interval_segments
  end.

(** [_convert_to_combined_units] (lines 122-134), from the total in the unit
    of highest resolution; [None] stands for the [IndexError] of [units[-1]]
    on an empty tuple. *)
Definition _convert_to_combined_units (units : list IntervalUnit)
    (factors : list Z) (converted_total : Z) : option (IntervalUnit → Z) :=
  let '(rem, interval_segments) :=
    combine_loop (zip (removelast units) factors) converted_total
      (λ _, 0%Z) in
  if decide (0 < rem)%Z then
    match list.last units with
    | Some unit => Some (setitem interval_segments unit rem)
    | None => None
    end
  else Some interval_segments.

(** [YearsToMonthsInterval] (lines 145-147) and [DaysToSecondsInterval]
    (lines 172-180): their [units] and [factors]. *)
Definition years_to_months (converted_total : Z)
  : option (IntervalUnit → Z) :=
  _convert_to_combined_units [YEAR; MONTH] [12%Z] converted_total.

Definition days_to_seconds (converted_total : Z)
  : option (IntervalUnit → Z) :=
  _convert_to_combined_units [DAY; HOUR; MINUTE; SECOND; MICROSECOND]
    [(86400 * 10 ^ 6)%Z; (3600 * 10 ^ 6)%Z; (60 * 10 ^ 6)%Z; (10 ^ 6)%Z]
    converted_total.

(** A stand-in for the readers: each one returns its own name and the
    path it was given. *)
Definition example_readers : Readers unit unit string :=
  {| members := ["read_csv"; "read_parquet"; "register"];
     read_parquet := λ _ _ _, Return "read_parquet";
     read_csv := λ _ _ _, Return "read_csv";
     read_postgres := λ _ _ _, Return "read_postgres";
     read_sqlite := λ path _ _, Return ("read_sqlite " +:+ path);
     read_in_memory := λ _ _ _, Return "read_in_memory" |}.

(** A registration that breaks the invariant of the data model: the owner
    of [Severity] is not a key of [dimension_tables]. *)
Definition broken_schema : Schema :=
  {| fact := "accidents_fact";
     dimension_tables := {[ "accidents_dim0" := "p0" ]};
     col_to_table_map :=
       {[ "ID" := "accidents_fact"; "Severity" := "accidents_dim1" ]} |}.

Definition broken_backend : Backend :=
  register_schema {[ "accidents" := broken_schema ]}
    {| override_schemas := ∅ |}.


(** Two enumeration orders enumerate the set [s] alike. *)
Definition same_enumeration (order1 order2 : SetOrder) (s : list string)
  : Prop :=
  @set_iter order1 s = @set_iter order2 s.

(** An order that enumerates every set as [insertion_order] does, by
    another route. *)
Definition twice_reversed_order : SetOrder :=
  {| set_iter := λ s, reverse (reverse s);
     set_iter_perm := λ s,
       transitivity (reverse_Permutation (reverse s))
         (reverse_Permutation s) |}.

(** * Properties *)

(** ** Sets *)

Lemma elem_of_add x y s : x ∈ PySet.add y s ↔ x = y ∨ x ∈ s.
Proof.
  unfold PySet.add. case_decide.
  - split; [auto | intros [-> | ?]; done].
  - rewrite elem_of_app, list_elem_of_singleton. tauto.
Qed.

Lemma NoDup_add y s : NoDup s → NoDup (PySet.add y s).
Proof.
  unfold PySet.add. intros Hs. case_decide; [done |].
  apply NoDup_app. split_and!; [done | | apply NoDup_singleton].
  intros x Hx ->%list_elem_of_singleton. done.
Qed.

Lemma elem_of_set_iter `{SetOrder} x s : x ∈ set_iter s ↔ x ∈ s.
Proof. by rewrite set_iter_perm. Qed.

Lemma NoDup_set_iter `{SetOrder} s : NoDup (set_iter s) ↔ NoDup s.
Proof. by rewrite set_iter_perm. Qed.

(** ** The schema registry *)

Lemma foldl_insert_lookup (items : list (string * Schema))
    (schemas : gmap string Schema) name :
  NoDup items.*1 →
  foldl (λ schemas item, <[item.1 := item.2]> schemas) schemas items !! name
  = match (list_to_map items : gmap string Schema) !! name with
    | Some schema => Some schema
    | None => schemas !! name
    end.
Proof.
  revert schemas. induction items as [| [key value] items IH];
    intros schemas Hnodup; simpl.
  - by rewrite lookup_empty.
  - apply NoDup_cons in Hnodup as [Hkey Hnodup].
    rewrite IH by done. destruct (decide (key = name)) as [-> | Hne].
    + rewrite !lookup_insert_eq.
      by rewrite (not_elem_of_list_to_map_1 _ _ Hkey).
    + by rewrite !lookup_insert_ne.
Qed.

Lemma register_schema_lookup schema self name :
  override_schemas (register_schema schema self) !! name
  = match schema !! name with
    | Some value => Some value
    | None => override_schemas self !! name
    end.
Proof.
  unfold register_schema; simpl.
  rewrite foldl_insert_lookup by apply NoDup_fst_map_to_list.
  by rewrite list_to_map_to_list.
Qed.

(** C8. After [register_schema], the lookup of a registered name returns the
    schema just registered, also when the name was registered before (the
    later registration overwrites the earlier one); the lookup of every
    other name returns what it returned before; no entry is removed; and
    the lookup of a name that is not registered signals absence: the turn of
    the loop of [rewrite_sql] for it raises nothing and leaves the tree as it
    is. *)
Theorem register_schema_spec `{SetOrder, SqlGlot}
    (schema : gmap string Schema) (self : Backend) :
  (∀ name value, schema !! name = Some value →
     override_schemas (register_schema schema self) !! name = Some value) ∧
  (∀ name value later,
     override_schemas
       (register_schema {[name := later]}
          (register_schema {[name := value]} self)) !! name = Some later) ∧
  (∀ name, schema !! name = None →
     override_schemas (register_schema schema self) !! name
     = override_schemas self !! name) ∧
  (∀ name, is_Some (override_schemas self !! name) →
     is_Some (override_schemas (register_schema schema self) !! name)) ∧
  (∀ name column_names expression_tree,
     override_schemas self !! name = None →
     rewrite_table self column_names expression_tree name
     = Ok expression_tree).
Proof.
  split_and!.
  - intros name value Hname. by rewrite register_schema_lookup, Hname.
  - intros name value later.
    by rewrite register_schema_lookup, lookup_singleton_eq.
  - intros name Hname. by rewrite register_schema_lookup, Hname.
  - intros name Hsome. rewrite register_schema_lookup.
    destruct (schema !! name); [by eexists | done].
  - intros name column_names expression_tree Hname.
    unfold rewrite_table. by rewrite Hname.
Qed.

Lemma register_schema_spec_witness :
  override_schemas accidents_backend !! "accidents" = Some accidents_schema ∧
  override_schemas accidents_backend !! "weather" = None ∧
  @rewrite_table insertion_order example_glot accidents_backend
    ["ID"] select_star "weather" = Ok select_star.
Proof.
  pose proof (@register_schema_spec insertion_order example_glot
                {[ "accidents" := accidents_schema ]}
                {| override_schemas := ∅ |}) as (Hnew & _ & Hother & _ & _).
  pose proof (@register_schema_spec insertion_order example_glot
                ∅ accidents_backend) as (_ & _ & _ & _ & Habsent).
  assert (override_schemas accidents_backend !! "weather" = None) as Hnone.
  { unfold accidents_backend. rewrite Hother; reflexivity. }
  split_and!.
  - apply Hnew. reflexivity.
  - exact Hnone.
  - apply Habsent. exact Hnone.
Defined.

(** ** The join-set planner *)

Section Planner.
Context {order : SetOrder} {glot : SqlGlot}.

Lemma dim_to_join_loop schema (cols acc : list string) dim :
  dim ∈ foldl (λ dim_to_join col,
                 match col_to_table_map schema !! col with
                 | None => dim_to_join
                 | Some dim_name =>
                     if decide (dim_name = fact schema) then dim_to_join
                     else PySet.add dim_name dim_to_join
                 end) acc cols
  ↔ dim ∈ acc ∨
    (dim ≠ fact schema ∧
     ∃ col, col ∈ cols ∧ col_to_table_map schema !! col = Some dim).
Proof.
  revert acc. induction cols as [| col cols IH]; intros acc; simpl.
  - split; [auto | intros [? | (_ & ? & []%elem_of_nil & _)]; done].
  - rewrite IH. clear IH.
    destruct (col_to_table_map schema !! col) as [owner |] eqn:Hcol.
    + case_decide as Howner.
      * split.
        -- intros [? | (? & c & ? & ?)]; [by left | right].
           split; [done |]. exists c. split; [by right | done].
        -- intros [? | (Hne & c & [-> | ?]%elem_of_cons & Hc)]; [by left | |].
           ++ congruence.
           ++ right. eauto.
      * rewrite elem_of_add. split.
        -- intros [[-> | ?] | (? & c & ? & ?)].
           ++ right. split; [done |]. exists col. split; [by left | done].
           ++ by left.
           ++ right. split; [done |]. exists c. split; [by right | done].
        -- intros [? | (Hne & c & [-> | ?]%elem_of_cons & Hc)].
           ++ auto.
           ++ left. left. congruence.
           ++ right. eauto.
    + split.
      * intros [? | (? & c & ? & ?)]; [by left | right].
        split; [done |]. exists c. split; [by right | done].
      * intros [? | (Hne & c & [-> | ?]%elem_of_cons & Hc)]; [by left | |].
        -- congruence.
        -- right. eauto.
Qed.

Lemma dim_to_join_loop_NoDup schema (cols acc : list string) :
  NoDup acc →
  NoDup (foldl (λ dim_to_join col,
                  match col_to_table_map schema !! col with
                  | None => dim_to_join
                  | Some dim_name =>
                      if decide (dim_name = fact schema) then dim_to_join
                      else PySet.add dim_name dim_to_join
                  end) acc cols).
Proof.
  revert acc. induction cols as [| col cols IH]; intros acc Hacc; simpl.
  - done.
  - apply IH. destruct (col_to_table_map schema !! col); [| done].
    case_decide; [done | by apply NoDup_add].
Qed.

Lemma elem_of_dim_to_join schema column_names dim :
  dim ∈ dim_to_join schema column_names
  ↔ dim ≠ fact schema ∧
    ∃ col, col ∈ column_names ∧ col_to_table_map schema !! col = Some dim.
Proof.
  unfold dim_to_join. rewrite dim_to_join_loop. unfold PySet.empty.
  setoid_rewrite elem_of_set_iter. rewrite elem_of_nil. tauto.
Qed.

Lemma NoDup_dim_to_join schema column_names :
  NoDup (dim_to_join schema column_names).
Proof. apply dim_to_join_loop_NoDup, NoDup_nil_2. Qed.

(** C2. The plan [dim_to_join] holds, each once, exactly the owners other
    than the fact table of the referenced columns that [col_to_table_map]
    knows: a column owned by the fact table and a column missing from the
    map add nothing (the plan is a plain value, nothing is raised), and when
    the plan is empty the replacement is the fact table alone, with no
    join. *)
Theorem dim_to_join_spec schema column_names :
  NoDup (dim_to_join schema column_names) ∧
  (∀ dim, dim ∈ dim_to_join schema column_names
     ↔ dim ≠ fact schema ∧
       ∃ col, col ∈ column_names ∧
              col_to_table_map schema !! col = Some dim) ∧
  ((∀ col, col ∈ column_names →
      col_to_table_map schema !! col = None ∨
      col_to_table_map schema !! col = Some (fact schema))
   ↔ dim_to_join schema column_names = []) ∧
  (dim_to_join schema column_names = [] →
   rewrite_string schema column_names = Ok ("FROM " +:+ fact schema)).
Proof.
  split_and!.
  - apply NoDup_dim_to_join.
  - apply elem_of_dim_to_join.
  - split.
    + intros Hcols. apply elem_of_nil_inv. intros dim.
      rewrite elem_of_dim_to_join. intros (Hne & col & Hin & Hcol).
      destruct (Hcols col Hin); congruence.
    + intros Hnil col Hin.
      destruct (col_to_table_map schema !! col) as [owner |] eqn:Hcol;
        [right | by left].
      destruct (decide (owner = fact schema)) as [-> | Hne]; [done |].
      assert (owner ∈ dim_to_join schema column_names) as Hdim
        by (apply elem_of_dim_to_join; eauto).
      rewrite Hnil in Hdim. by apply elem_of_nil in Hdim.
  - intros Hnil. unfold rewrite_string. by rewrite Hnil.
Qed.

Lemma join_clauses_Ok schema dims :
  Forall (λ dim, is_Some (dimension_tables schema !! dim)) dims →
  join_clauses schema dims = Ok (conjunct schema <$> dims).
Proof.
  induction 1 as [| dim dims [joining_col Hdim] _ IH]; simpl; [done |].
  unfold join_string at 1, getitem, conjunct at 1.
  rewrite Hdim, IH. reflexivity.
Qed.

Lemma dim_to_join_keys schema column_names :
  schema_invariant schema →
  Forall (λ dim, is_Some (dimension_tables schema !! dim))
    (dim_to_join schema column_names).
Proof.
  intros Hinv. apply Forall_forall. intros dim.
  rewrite elem_of_dim_to_join. intros (Hne & col & _ & Hcol).
  by destruct (Hinv col dim Hcol).
Qed.

Lemma rewrite_string_join schema column_names :
  Forall (λ dim, is_Some (dimension_tables schema !! dim))
    (dim_to_join schema column_names) →
  dim_to_join schema column_names ≠ [] →
  rewrite_string schema column_names
  = Ok (derived_table schema
          (set_iter (PySet.add (fact schema)
                       (dim_to_join schema column_names)))
          (set_iter (dim_to_join schema column_names))).
Proof.
  intros Hkeys Hne. unfold rewrite_string, PySet.len.
  case_decide as Hlen; [by apply nil_length_inv in Hlen |].
  rewrite join_clauses_Ok; [done |].
  by rewrite set_iter_perm.
Qed.

Lemma add_fact_Permutation schema column_names :
  PySet.add (fact schema) (dim_to_join schema column_names)
  ≡ₚ fact schema :: dim_to_join schema column_names.
Proof.
  unfold PySet.add. case_decide as Hin.
  - apply elem_of_dim_to_join in Hin as [? _]. done.
  - by rewrite Permutation_app_comm.
Qed.

(** C10. For a schema that keeps the invariant of the data model, each
    dimension of the plan has its joining key in [dimension_tables], so the
    lookup [schema['dimension_tables'][dim]] raises no [KeyError] and the text
    of the replacement FROM clause is built. *)
Theorem rewrite_string_no_KeyError schema column_names :
  schema_invariant schema →
  (∀ dim, dim ∈ dim_to_join schema column_names →
     ∃ joining_col,
       getitem (dimension_tables schema) dim = Ok joining_col) ∧
  (∃ join_strings,
     join_clauses schema (set_iter (dim_to_join schema column_names))
     = Ok join_strings) ∧
  (∃ text, rewrite_string schema column_names = Ok text).
Proof.
  intros Hinv.
  pose proof (dim_to_join_keys schema column_names Hinv) as Hkeys.
  split_and!.
  - intros dim Hdim. rewrite Forall_forall in Hkeys.
    destruct (Hkeys dim Hdim) as [joining_col Hcol].
    exists joining_col. unfold getitem. by rewrite Hcol.
  - eexists. apply join_clauses_Ok. by rewrite set_iter_perm.
  - destruct (dim_to_join schema column_names) as [| dim dims] eqn:Hplan.
    + eexists. unfold rewrite_string. by rewrite Hplan.
    + eexists. apply rewrite_string_join; rewrite Hplan; done.
Qed.

Lemma join_clauses_inv schema dims join_strings :
  join_clauses schema dims = Ok join_strings →
  Forall (λ dim, is_Some (dimension_tables schema !! dim)) dims.
Proof.
  revert join_strings. induction dims as [| dim dims IH];
    intros join_strings Hrun; [done |].
  simpl in Hrun. unfold join_string at 1, getitem in Hrun.
  destruct (dimension_tables schema !! dim) as [joining_col |] eqn:Hdim;
    [| done].
  simpl in Hrun.
  destruct (join_clauses schema dims) as [rest |] eqn:Hrest; [| done].
  apply Forall_cons. split; [by eexists | by eapply IH].
Qed.

Lemma rewrite_string_inv schema column_names text :
  rewrite_string schema column_names = Ok text →
  Forall (λ dim, is_Some (dimension_tables schema !! dim))
    (dim_to_join schema column_names).
Proof.
  unfold rewrite_string, PySet.len. case_decide as Hlen.
  - apply nil_length_inv in Hlen as ->. done.
  - destruct (join_clauses schema (set_iter (dim_to_join schema column_names)))
      as [join_strings |] eqn:Hrun; [| done].
    intros _. apply join_clauses_inv in Hrun. by rewrite set_iter_perm in Hrun.
Qed.

(** C1 (amended). For a plan that is not empty the text of the replacement
    FROM clause is built whenever the schema keeps the invariant of the data
    model, and whenever it is built it is the parenthesized derived table
    [FROM (SELECT * FROM tables WHERE conjuncts)]: [tables] lists the fact
    table and each dimension of the plan, each once, in the order in which
    the set is enumerated (the fact table need not come first); [conjuncts]
    holds one equality per dimension of the plan, between the joining key
    of that dimension in the fact table and the column of the same name in
    the dimension, all linked by AND. *)
Theorem rewrite_string_derived_table schema column_names :
  dim_to_join schema column_names ≠ [] →
  (schema_invariant schema →
   ∃ text, rewrite_string schema column_names = Ok text) ∧
  (∀ text, rewrite_string schema column_names = Ok text →
   ∃ tables dims,
     text = "FROM (SELECT * FROM " +:+ join "," tables +:+ " WHERE "
            +:+ join " AND " (conjunct schema <$> dims) +:+ ")" ∧
     tables ≡ₚ fact schema :: dim_to_join schema column_names ∧
     NoDup tables ∧
     dims ≡ₚ dim_to_join schema column_names ∧
     NoDup dims ∧
     length (conjunct schema <$> dims)
     = length (dim_to_join schema column_names) ∧
     ∀ dim, dim ∈ dims →
       ∃ joining_col,
         dimension_tables schema !! dim = Some joining_col ∧
         conjunct schema dim
         = fact schema +:+ "." +:+ joining_col +:+ "=" +:+ dim +:+ "."
           +:+ joining_col).
Proof.
  intros Hne. split.
  - intros Hinv. eexists.
    apply rewrite_string_join; [by apply dim_to_join_keys | done].
  - intros text Htext.
    pose proof (rewrite_string_inv _ _ _ Htext) as Hkeys.
    pose proof (NoDup_dim_to_join schema column_names) as Hnodup.
    rewrite rewrite_string_join in Htext by done.
    inversion Htext as [Heq]. clear Htext Heq.
    eexists _, _. split_and!.
    + reflexivity.
    + rewrite set_iter_perm. apply add_fact_Permutation.
    + rewrite set_iter_perm, add_fact_Permutation.
      apply NoDup_cons. split; [| done].
      rewrite elem_of_dim_to_join. tauto.
    + apply set_iter_perm.
    + by rewrite set_iter_perm.
    + by rewrite length_fmap, set_iter_perm.
    + intros dim Hdim. rewrite elem_of_set_iter in Hdim.
      rewrite Forall_forall in Hkeys.
      destruct (Hkeys dim Hdim) as [joining_col Hcol].
      exists joining_col. split; [done |]. unfold conjunct. by rewrite Hcol.
Qed.

End Planner.

Lemma rewrite_string_no_KeyError_witness :
  schema_invariant accidents_schema ∧
  ∃ text,
    @rewrite_string insertion_order accidents_schema ["ID"; "Severity"]
    = Ok text.
Proof.
  split.
  - apply (bool_decide_unpack _). vm_compute. exact I.
  - apply (@rewrite_string_no_KeyError insertion_order accidents_schema
             ["ID"; "Severity"]).
    apply (bool_decide_unpack _). vm_compute. exact I.
Defined.

Lemma rewrite_string_derived_table_witness :
  @dim_to_join reverse_order accidents_schema ["Side"; "Severity"] ≠ [] ∧
  ∃ tables dims,
    @rewrite_string reverse_order accidents_schema ["Side"; "Severity"]
    = Ok ("FROM (SELECT * FROM " +:+ join "," tables +:+ " WHERE "
          +:+ join " AND " (conjunct accidents_schema <$> dims) +:+ ")") ∧
    tables ≡ₚ "accidents_fact" :: ["accidents_dim1"; "accidents_dim0"].
Proof.
  assert (@dim_to_join reverse_order accidents_schema ["Side"; "Severity"]
          ≠ []) as Hplan by (vm_compute; discriminate).
  split; [exact Hplan |].
  destruct (@rewrite_string_derived_table reverse_order accidents_schema
              ["Side"; "Severity"] Hplan) as [Hbuilt Hshape].
  destruct Hbuilt as [text Htext].
  { apply (bool_decide_unpack _). vm_compute. exact I. }
  destruct (Hshape text Htext) as (tables & dims & -> & Htables & _).
  exists tables, dims. split; [exact Htext | exact Htables].
Defined.

(** C1, as the specification words it, fails: in the order of insertion the
    set [dim_to_join] is enumerated with the fact table, added last, after
    the dimension, so the table list is not the fact table followed by the
    dimensions of the plan. *)
Lemma derived_table_fact_first_counterexample :
  @dim_to_join insertion_order accidents_schema ["ID"; "Severity"]
  = ["accidents_dim1"] ∧
  @rewrite_string insertion_order accidents_schema ["ID"; "Severity"]
  = Ok ("FROM (SELECT * FROM accidents_dim1,accidents_fact WHERE "
        +:+ "accidents_fact.p1=accidents_dim1.p1)") ∧
  ¬ ∃ dims,
      dims ≡ₚ @dim_to_join insertion_order accidents_schema
                ["ID"; "Severity"] ∧
      @rewrite_string insertion_order accidents_schema ["ID"; "Severity"]
      = Ok (derived_table_fact_first accidents_schema dims).
Proof.
  split_and!.
  - reflexivity.
  - reflexivity.
  - intros (dims & Hdims & Htext).
    change (dims ≡ₚ ["accidents_dim1"]) in Hdims.
    apply Permutation_singleton_r in Hdims as ->.
    vm_compute in Htext. discriminate Htext.
Qed.

(** ** The visit of the tree *)

Lemma transform_unfold {S} (fun_ : Expression → S → result (visit * S))
    node s :
  transform fun_ node s
  = match fun_ node s with
    | Raise e => Raise e
    | Ok (Replaced new_node, s) => Ok (new_node, s)
    | Ok (Same, s) =>
        match transform_children fun_ (args_of node) s with
        | Raise e => Raise e
        | Ok (args, s) => Ok (with_args node args, s)
        end
    end.
Proof.
  destruct node; simpl; destruct (fun_ _ s) as [[[] ?] |]; reflexivity.
Qed.

Lemma nodes_unfold node :
  nodes node = node :: concat (map nodes (args_of node)).
Proof. by destruct node. Qed.

(** ** The reference extractor *)

Section Extractor.
Context {order : SetOrder} {glot : SqlGlot}.

Lemma collected_nil names : collected [] names names.
Proof.
  split_and!; [done | done | |].
  - intros t. split; [auto |].
    intros [? | (_ & ? & ? & []%elem_of_nil)]; done.
  - intros c. split; [auto |]. intros [? | (? & []%elem_of_nil)]; done.
Qed.

Lemma collected_app visited1 visited2 names0 names1 names2 :
  collected visited1 names0 names1 →
  collected visited2 names1 names2 →
  collected (visited1 ++ visited2) names0 names2.
Proof.
  intros (Ht1 & Hc1 & Htab1 & Hcol1) (Ht2 & Hc2 & Htab2 & Hcol2).
  split_and!; [auto | auto | |].
  - intros t. rewrite Htab2, Htab1. split.
    + intros [[? | (? & a & l & ?)] | (? & a & l & ?)]; [by left | |];
        right; (split; [done |]); exists a, l; apply elem_of_app; auto.
    + intros [? | (? & a & l & [? | ?]%elem_of_app)]; [by left; left | |].
      * left; right. eauto.
      * right. eauto.
  - intros c. rewrite Hcol2, Hcol1. split.
    + intros [[? | (q & ?)] | (q & ?)]; [by left | |];
        right; exists q; apply elem_of_app; auto.
    + intros [? | (q & [? | ?]%elem_of_app)]; [by left; left | |].
      * left; right. eauto.
      * right. eauto.
Qed.

Lemma get_table_and_column_names_spec node names :
  ∃ names',
    get_table_and_column_names node names = Ok (Same, names') ∧
    collected [node] names names'.
Proof.
  destruct names as [table_names column_names].
  destruct node as [name alias args | name table | kind args]; simpl.
  - case_decide as Hname; eexists; (split; [reflexivity |]).
    + split_and!; simpl; [done | done | |].
      * intros t. split; [auto |].
        intros [? | (Hne & a & l & Hin)]; [done |].
        apply list_elem_of_singleton in Hin. congruence.
      * intros c. split; [auto |].
        intros [? | (q & Hin)]; [done |].
        apply list_elem_of_singleton in Hin. congruence.
    + split_and!; simpl; [apply NoDup_add | done | |].
      * intros t. rewrite elem_of_add. split.
        -- intros [-> | ?]; [right | by left].
           split; [done |]. exists alias, args. apply list_elem_of_singleton.
           done.
        -- intros [? | (Hne & a & l & Hin)]; [by right | left].
           apply list_elem_of_singleton in Hin. congruence.
      * intros c. split; [auto |].
        intros [? | (q & Hin)]; [done |].
        apply list_elem_of_singleton in Hin. congruence.
  - eexists. split; [reflexivity |].
    split_and!; simpl; [done | apply NoDup_add | |].
    + intros t. split; [auto |].
      intros [? | (Hne & a & l & Hin)]; [done |].
      apply list_elem_of_singleton in Hin. congruence.
    + intros c. rewrite elem_of_add. split.
      * intros [-> | ?]; [right | by left].
        exists table. by apply list_elem_of_singleton.
      * intros [? | (q & Hin)]; [by right | left].
        apply list_elem_of_singleton in Hin. congruence.
  - eexists. split; [reflexivity |].
    split_and!; simpl; [done | done | |].
    + intros t. split; [auto |].
      intros [? | (Hne & a & l & Hin)]; [done |].
      apply list_elem_of_singleton in Hin. congruence.
    + intros c. split; [auto |].
      intros [? | (q & Hin)]; [done |].
      apply list_elem_of_singleton in Hin. congruence.
Qed.

Lemma transform_get_table_and_column_names node :
  ∀ names, ∃ names',
    transform get_table_and_column_names node names = Ok (node, names') ∧
    collected (nodes node) names names'.
Proof.
  assert (∀ args,
    Forall (λ node, ∀ names, ∃ names',
      transform get_table_and_column_names node names = Ok (node, names') ∧
      collected (nodes node) names names') args →
    ∀ names, ∃ names',
      transform_children get_table_and_column_names args names
      = Ok (args, names') ∧
      collected (concat (map nodes args)) names names') as Hchildren.
  { induction 1 as [| child args Hchild _ IH]; intros names; simpl.
    - exists names. split; [done | apply collected_nil].
    - destruct (Hchild names) as (names1 & -> & Hnames1).
      destruct (IH names1) as (names2 & -> & Hnames2).
      exists names2. split; [done | by eapply collected_app]. }
  assert (∀ node,
    Forall (λ node, ∀ names, ∃ names',
      transform get_table_and_column_names node names = Ok (node, names') ∧
      collected (nodes node) names names') (args_of node) →
    ∀ names, ∃ names',
      transform get_table_and_column_names node names = Ok (node, names') ∧
      collected (nodes node) names names') as Hnode.
  { intros n Hargs names. rewrite transform_unfold, nodes_unfold.
    destruct (get_table_and_column_names_spec n names)
      as (names1 & -> & Hnames1).
    destruct (Hchildren _ Hargs names1) as (names2 & -> & Hnames2).
    exists names2. split; [by destruct n |].
    by apply (collected_app [n] _ names names1 names2). }
  induction node as [name alias args IH | name table | kind args IH]
    using Expression_ind; apply Hnode; simpl; done.
Qed.

(** C6. On every tree the extractor's one visit returns the tree as it was
    together with two sets: [table_names] holds exactly the names carried by
    the FROM nodes found anywhere in the tree, as they are written there (a
    FROM node without a table name, such as one over a subquery, adds
    nothing); [column_names] holds exactly the bare names of the column
    references found anywhere in the tree, whatever their qualifier. *)
Theorem extract_spec (expression_tree : Expression) :
  ∃ table_names column_names,
    extract expression_tree
    = Ok (expression_tree, (table_names, column_names)) ∧
    NoDup table_names ∧ NoDup column_names ∧
    (∀ table_name, table_name ∈ table_names
       ↔ table_name ≠ "" ∧
         ∃ alias args, From table_name alias args ∈ nodes expression_tree) ∧
    (∀ column_name, column_name ∈ column_names
       ↔ ∃ table, Column column_name table ∈ nodes expression_tree).
Proof.
  destruct (transform_get_table_and_column_names expression_tree
              (PySet.empty, PySet.empty))
    as ([table_names column_names] & Hrun & Ht & Hc & Htab & Hcol).
  exists table_names, column_names. simpl in *. split_and!.
  - exact Hrun.
  - apply Ht, NoDup_nil_2.
  - apply Hc, NoDup_nil_2.
  - intros t. rewrite Htab. unfold PySet.empty. rewrite elem_of_nil. tauto.
  - intros c. rewrite Hcol. unfold PySet.empty. rewrite elem_of_nil. tauto.
Qed.

End Extractor.

(** ** The FROM-clause rewriter *)

Lemma Expression_args_ind (P : Expression → Prop) :
  (∀ node, Forall P (args_of node) → P node) → ∀ node, P node.
Proof.
  intros Hstep node.
  induction node using Expression_ind; apply Hstep; simpl; done.
Qed.

Lemma transform_children_lookup {S}
    (fun_ : Expression → S → result (visit * S)) args :
  ∀ s args' s',
    transform_children fun_ args s = Ok (args', s') →
    length args' = length args ∧
    ∀ i child, args !! i = Some child →
      ∃ child' s1 s2,
        transform fun_ child s1 = Ok (child', s2) ∧ args' !! i = Some child'.
Proof.
  induction args as [| c args IH]; intros s args' s' Hrun; simpl in Hrun.
  - inversion Hrun; subst. split; [done |]. intros i child Hi. done.
  - destruct (transform fun_ c s) as [[c' s1] |] eqn:Hc; [| done].
    destruct (transform_children fun_ args s1) as [[args1 s2] |] eqn:Hargs;
      [| done].
    inversion Hrun; subst. destruct (IH _ _ _ Hargs) as [Hlen Hlookup].
    split; [simpl; by rewrite Hlen |].
    intros [| i] child Hi; simpl in *.
    + inversion Hi; subst. eauto.
    + eauto.
Qed.

Section Rewriter.
Context {order : SetOrder} {glot : SqlGlot}.

Lemma rewrite_from_Same table_name rewrite_string node :
  ¬ from_of table_name node →
  rewrite_from table_name rewrite_string node () = Ok (Same, ()).
Proof.
  destruct node; simpl; [| done | done]. intros Hne. by case_decide.
Qed.

Lemma rewrite_from_hit table_name rewrite_string node :
  from_of table_name node →
  rewrite_from table_name rewrite_string node ()
  = (new_node ← parse_one (updated rewrite_string node);
     mret (Replaced new_node, ())).
Proof.
  destruct node; simpl; [| done | done]. intros Heq. by case_decide.
Qed.

(** C4 (amended). The text of a rewritten FROM clause, whether it is the
    fact table alone or the derived table of the join, always ends in
    [AS] and a name: the original alias when the reference had one, and the
    name of the logical table itself when it had none. *)
Theorem rewrite_from_alias (table_name rewrite_string alias : string)
    (args : list Expression) :
  table_name ≠ "" →
  updated rewrite_string (From table_name alias args)
  = rewrite_string +:+ " AS "
    +:+ (if decide (alias = "") then table_name else alias) ∧
  rewrite_from table_name rewrite_string (From table_name alias args) ()
  = (new_node ←
       parse_one (rewrite_string +:+ " AS "
                  +:+ (if decide (alias = "") then table_name else alias));
     mret (Replaced new_node, ())).
Proof.
  intros Hname.
  assert (updated rewrite_string (From table_name alias args)
          = rewrite_string +:+ " AS "
            +:+ (if decide (alias = "") then table_name else alias))
    as Hupdated.
  { unfold updated; simpl. destruct (decide (alias = "")); by case_decide. }
  split; [done |]. by rewrite rewrite_from_hit, Hupdated.
Qed.

Lemma transform_rewrite_from_get table_name rewrite_string tree :
  ∀ tree' path node,
    transform (rewrite_from table_name rewrite_string) tree ()
    = Ok (tree', ()) →
    get path tree = Some node →
    outside table_name path tree →
    if decide (from_of table_name node) then
      ∃ new_node,
        parse_one (updated rewrite_string node) = Ok new_node ∧
        get path tree' = Some new_node
    else
      ∃ node',
        get path tree' = Some node' ∧
        head_of node' = head_of node ∧
        length (args_of node') = length (args_of node).
Proof.
  induction tree as [tree IH] using Expression_args_ind.
  intros tree' path node Hrun Hget Hout. rewrite transform_unfold in Hrun.
  destruct (decide (from_of table_name tree)) as [Hhit | Hmiss].
  - rewrite rewrite_from_hit in Hrun by done.
    destruct (parse_one (updated rewrite_string tree)) as [new_node |]
      eqn:Hparse; [| done].
    simpl in Hrun. inversion Hrun; subst.
    destruct path as [| i path]; simpl in *; [| tauto].
    inversion Hget; subst. rewrite decide_True by done. eauto.
  - rewrite rewrite_from_Same in Hrun by done.
    destruct (transform_children _ (args_of tree) ()) as [[args' []] |]
      eqn:Hargs; [| done].
    inversion Hrun; subst.
    apply transform_children_lookup in Hargs as [Hlen Hlookup].
    destruct path as [| i path]; simpl in *.
    + inversion Hget; subst. rewrite decide_False by done.
      exists (with_args node args'). split; [done |].
      destruct node; simpl in *; done.
    + destruct Hout as [_ Hout].
      destruct (args_of tree !! i) as [child |] eqn:Hchild; [| done].
      simpl in Hget.
      destruct (Hlookup i child Hchild) as (child' & [] & [] & Hc & Hi).
      rewrite Forall_lookup in IH.
      specialize (IH i child Hchild child' path node Hc Hget Hout).
      assert (args_of (with_args tree args') !! i = Some child') as ->
        by (destruct tree; simpl in *; done).
      simpl. exact IH.
Qed.

Lemma transform_rewrite_from_id table_name rewrite_string tree :
  (∀ node, node ∈ nodes tree → ¬ from_of table_name node) →
  transform (rewrite_from table_name rewrite_string) tree () = Ok (tree, ()).
Proof.
  induction tree as [tree IH] using Expression_args_ind. intros Hnone.
  rewrite transform_unfold, rewrite_from_Same
    by (apply Hnone; rewrite nodes_unfold; by left).
  assert (transform_children (rewrite_from table_name rewrite_string)
            (args_of tree) () = Ok (args_of tree, ())) as ->.
  { assert (∀ node, node ∈ concat (map nodes (args_of tree)) →
              ¬ from_of table_name node) as Hbelow.
    { intros node Hin. apply Hnone. rewrite nodes_unfold. by right. }
    clear Hnone. induction IH as [| child args Hchild _ IHargs]; simpl.
    - done.
    - simpl in Hbelow. rewrite Hchild.
      + rewrite IHargs; [done |].
        intros node Hin. apply Hbelow, elem_of_app. by right.
      + intros node Hin. apply Hbelow, elem_of_app. by left. }
  by destruct tree.
Qed.

Lemma transform_rewrite_from_Ok table_name rewrite_string tree :
  (∀ node, node ∈ nodes tree → from_of table_name node →
     ∃ new_node, parse_one (updated rewrite_string node) = Ok new_node) →
  ∃ tree',
    transform (rewrite_from table_name rewrite_string) tree ()
    = Ok (tree', ()).
Proof.
  induction tree as [tree IH] using Expression_args_ind. intros Hparse.
  rewrite transform_unfold.
  destruct (decide (from_of table_name tree)) as [Hhit | Hmiss].
  - rewrite rewrite_from_hit by done.
    destruct (Hparse tree) as [new_node ->];
      [rewrite nodes_unfold; by left | done |].
    simpl. eauto.
  - rewrite rewrite_from_Same by done.
    assert (∃ args', transform_children
              (rewrite_from table_name rewrite_string) (args_of tree) ()
            = Ok (args', ())) as [args' ->]; [| eauto].
    assert (∀ node, node ∈ concat (map nodes (args_of tree)) →
              from_of table_name node →
              ∃ new_node,
                parse_one (updated rewrite_string node) = Ok new_node)
      as Hbelow.
    { intros node Hin. apply Hparse. rewrite nodes_unfold. by right. }
    clear Hparse. induction IH as [| child args Hchild _ IHargs]; simpl.
    + eauto.
    + simpl in Hbelow. destruct Hchild as [child' ->].
      * intros node Hin. apply Hbelow, elem_of_app. by left.
      * destruct IHargs as [args' ->]; [| eauto].
        intros node Hin. apply Hbelow, elem_of_app. by right.
Qed.

(** C5 (amended). One application of the rewriter for [table_name]
    replaces every FROM node naming [table_name], however many the tree
    holds, by the parse of its updated text; every node that does not lie
    below such a FROM node keeps its own content and its number of children,
    among them the FROM nodes naming any other table. The call returns as
    soon as the updated texts parse; a tree without a FROM node naming
    [table_name] is returned as it is, and for a name without a registry
    entry the rewriter is not applied at all. *)
Theorem transform_rewrite_from_frame (table_name rewrite_string : string)
    (tree : Expression) :
  (∀ tree' path node,
     transform (rewrite_from table_name rewrite_string) tree ()
     = Ok (tree', ()) →
     get path tree = Some node →
     outside table_name path tree →
     if decide (from_of table_name node) then
       ∃ new_node,
         parse_one (updated rewrite_string node) = Ok new_node ∧
         get path tree' = Some new_node
     else
       ∃ node',
         get path tree' = Some node' ∧
         head_of node' = head_of node ∧
         length (args_of node') = length (args_of node)) ∧
  ((∀ node, node ∈ nodes tree → from_of table_name node →
      ∃ new_node, parse_one (updated rewrite_string node) = Ok new_node) →
   ∃ tree',
     transform (rewrite_from table_name rewrite_string) tree ()
     = Ok (tree', ())) ∧
  ((∀ node, node ∈ nodes tree → ¬ from_of table_name node) →
   transform (rewrite_from table_name rewrite_string) tree ()
   = Ok (tree, ())) ∧
  (∀ self column_names,
     override_schemas self !! table_name = None →
     rewrite_table self column_names tree table_name = Ok tree).
Proof.
  split_and!.
  - intros tree' path node. apply transform_rewrite_from_get.
  - apply transform_rewrite_from_Ok.
  - apply transform_rewrite_from_id.
  - intros self column_names Hnone. unfold rewrite_table. by rewrite Hnone.
Qed.

End Rewriter.

Lemma rewrite_from_alias_witness :
  "accidents" ≠ "" ∧
  updated "FROM accidents_fact" (From "accidents" "a" [Node "Table" []])
  = "FROM accidents_fact AS a" ∧
  updated "FROM accidents_fact" (From "accidents" "" [Node "Table" []])
  = "FROM accidents_fact AS accidents".
Proof.
  assert ("accidents" ≠ "") as Hname by discriminate.
  split; [exact Hname |]. split.
  - exact (proj1 (@rewrite_from_alias example_glot "accidents"
                    "FROM accidents_fact" "a" [Node "Table" []] Hname)).
  - exact (proj1 (@rewrite_from_alias example_glot "accidents"
                    "FROM accidents_fact" "" [Node "Table" []] Hname)).
Defined.

(** C4, as the specification words it, fails: a reference without an alias
    is rewritten into a FROM clause that does carry one, the name of the
    logical table. *)
Lemma updated_reattach_alias_counterexample :
  updated "FROM accidents_fact" (From "accidents" "" [Node "Table" []])
  = "FROM accidents_fact AS accidents" ∧
  updated_reattach_alias "FROM accidents_fact"
    (From "accidents" "" [Node "Table" []])
  = "FROM accidents_fact" ∧
  updated "FROM accidents_fact" (From "accidents" "" [Node "Table" []])
  ≠ updated_reattach_alias "FROM accidents_fact"
      (From "accidents" "" [Node "Table" []]).
Proof. split_and!; [reflexivity | reflexivity | discriminate]. Qed.

Lemma transform_rewrite_from_frame_witness :
  ∃ tree',
    transform (@rewrite_from example_glot "accidents" "FROM accidents_fact")
      select_severity () = Ok (tree', ()) ∧
    get [2] tree'
    = Some (From "" "" [Node "FROM accidents_fact AS accidents" []]) ∧
    get [0] tree' = Some (Column "ID" "").
Proof.
  pose proof (@transform_rewrite_from_frame insertion_order example_glot
                "accidents" "FROM accidents_fact" select_severity)
    as (Hframe & Hreturns & _ & _).
  destruct Hreturns as [tree' Hrun].
  { intros node _ _. eexists. reflexivity. }
  exists tree'. split; [exact Hrun |]. split.
  - destruct (Hframe tree' [2] (From "accidents" "" [Node "Table" []]) Hrun)
      as (new_node & Hparse & Hget).
    + reflexivity.
    + simpl. split; [intros [] | exact I].
    + rewrite Hget. f_equal. vm_compute in Hparse. by inversion Hparse.
  - vm_compute in Hrun. inversion Hrun. reflexivity.
Defined.

(** C5, as the specification words it, fails: in a query that names the
    logical table in two FROM clauses one application of the rewriter
    replaces both FROM nodes, not exactly one. *)
Lemma one_from_replaced_counterexample :
  ∃ tree',
    transform (@rewrite_from example_glot "accidents" "FROM accidents_fact")
      select_union () = Ok (tree', ()) ∧
    replaced_from_nodes select_union tree' = [[0; 1]; [1; 1]] ∧
    length (replaced_from_nodes select_union tree') ≠ 1.
Proof.
  eexists. split; [reflexivity |]. split; [by vm_compute | by vm_compute].
Qed.

(** ** The rewrite driver *)

Section Driver.
Context {order : SetOrder} {glot : SqlGlot}.

Lemma rewrite_table_skip self column_names tree table_name :
  match override_schemas self !! table_name with
  | Some schema => dimension_tables schema = ∅
  | None => True
  end →
  rewrite_table self column_names tree table_name = Ok tree.
Proof.
  unfold rewrite_table.
  destruct (override_schemas self !! table_name) as [schema |]; [| done].
  intros ->. by rewrite map_size_empty.
Qed.

Lemma rewrite_tables_skip self column_names tree table_names :
  Forall (λ table_name,
            match override_schemas self !! table_name with
            | Some schema => dimension_tables schema = ∅
            | None => True
            end) table_names →
  rewrite_tables self column_names tree table_names = Ok tree.
Proof.
  induction 1 as [| table_name table_names Hskip _ IH]; simpl; [done |].
  by rewrite rewrite_table_skip.
Qed.

(** C7. For a table registered with a schema whose [dimension_tables] is
    empty, the turn of the loop for that table leaves the tree as it is: no
    FROM node is replaced, not even by the fact table of the schema; a query
    whose tables are all of that kind, or not registered, is printed from
    the tree the optimizer returned. *)
Theorem rewrite_table_no_dimensions (self : Backend) (table_name : string)
    (schema : Schema) :
  override_schemas self !! table_name = Some schema →
  dimension_tables schema = ∅ →
  (∀ column_names expression_tree,
     rewrite_table self column_names expression_tree table_name
     = Ok expression_tree) ∧
  (∀ sql_text expression_tree table_names column_names,
     optimize sql_text = Ok expression_tree →
     extract expression_tree
     = Ok (expression_tree, (table_names, column_names)) →
     column_names ≠ [] →
     (∀ other, other ∈ table_names →
        other = table_name ∨ override_schemas self !! other = None) →
     rewrite_sql sql_text self = (Ok (sql expression_tree), self)).
Proof.
  intros Hschema Hempty. split.
  - intros column_names expression_tree.
    apply rewrite_table_skip. by rewrite Hschema.
  - intros sql_text expression_tree table_names column_names
      Hopt Hextract Hcols Htables.
    unfold rewrite_sql. rewrite Hopt. simpl. rewrite Hextract. simpl.
    unfold PySet.len. case_decide as Hlen;
      [by apply nil_length_inv in Hlen |].
    rewrite rewrite_tables_skip; [done |].
    apply Forall_forall. intros other Hin. rewrite elem_of_set_iter in Hin.
    destruct (Htables other Hin) as [-> | ->]; [by rewrite Hschema | done].
Qed.

(** C3. When the extractor collects no column name from the optimized tree,
    [rewrite_sql] returns the very text it was given, not the print of the
    optimized tree, whatever the registry holds for the tables of the
    query. *)
Theorem rewrite_sql_no_columns (sql_text : string) (self : Backend)
    (expression_tree tree' : Expression) (table_names : list string) :
  optimize sql_text = Ok expression_tree →
  extract expression_tree = Ok (tree', (table_names, [])) →
  rewrite_sql sql_text self = (Ok sql_text, self).
Proof.
  intros Hopt Hextract. unfold rewrite_sql.
  rewrite Hopt. simpl. rewrite Hextract. reflexivity.
Qed.

End Driver.

Lemma dim_to_join_same_enumeration (order1 order2 : SetOrder) schema
    column_names :
  same_enumeration order1 order2 column_names →
  @dim_to_join order1 schema column_names
  = @dim_to_join order2 schema column_names.
Proof. intros Hsame. unfold dim_to_join. by rewrite Hsame. Qed.

Lemma rewrite_string_same_enumeration (order1 order2 : SetOrder) schema
    column_names :
  same_enumeration order1 order2 column_names →
  same_enumeration order1 order2 (@dim_to_join order1 schema column_names) →
  same_enumeration order1 order2
    (PySet.add (fact schema) (@dim_to_join order1 schema column_names)) →
  @rewrite_string order1 schema column_names
  = @rewrite_string order2 schema column_names.
Proof.
  intros Hcols Hplan Htables. unfold rewrite_string.
  rewrite <- (dim_to_join_same_enumeration order1 order2) by done.
  by rewrite Hplan, Htables.
Qed.

Lemma rewrite_tables_same_enumeration (order1 order2 : SetOrder)
    `{SqlGlot} self column_names table_names :
  same_enumeration order1 order2 column_names →
  (∀ table_name schema,
     table_name ∈ table_names →
     override_schemas self !! table_name = Some schema →
     same_enumeration order1 order2
       (@dim_to_join order1 schema column_names) ∧
     same_enumeration order1 order2
       (PySet.add (fact schema)
          (@dim_to_join order1 schema column_names))) →
  ∀ tree,
    @rewrite_tables order1 _ self column_names tree table_names
    = @rewrite_tables order2 _ self column_names tree table_names.
Proof.
  intros Hcols. induction table_names as [| table_name table_names IH];
    intros Hsets tree; [done |].
  assert (@rewrite_table order1 _ self column_names tree table_name
          = @rewrite_table order2 _ self column_names tree table_name)
    as Hturn.
  { unfold rewrite_table.
    destruct (override_schemas self !! table_name) as [schema |] eqn:Hschema;
      [| done].
    destruct (Hsets table_name schema) as [Hplan Htables];
      [by left | done |].
    by rewrite (rewrite_string_same_enumeration order1 order2). }
  simpl. rewrite Hturn.
  destruct (@rewrite_table order2 _ self column_names tree table_name)
    as [tree' | e]; [| done].
  simpl. apply IH. intros name schema Hin. apply Hsets. by right.
Qed.

(** C9 (amended). The result of [rewrite_sql] is fixed by the text, the
    registry and the order in which the sets built on the way are
    enumerated: two invocations that enumerate alike the table names, the
    column names and, for each registered table of the query, its plan and
    its plan with the fact table, return the same text or raise the same
    exception, whatever else their enumeration orders do; and an invocation
    leaves the backend and its registry as they were. *)
Theorem rewrite_sql_same_enumeration (order1 order2 : SetOrder)
    `{SqlGlot} (sql_text : string) (self : Backend) :
  (∀ expression_tree table_names column_names,
     optimize sql_text = Ok expression_tree →
     extract expression_tree
     = Ok (expression_tree, (table_names, column_names)) →
     same_enumeration order1 order2 table_names ∧
     same_enumeration order1 order2 column_names ∧
     ∀ table_name schema,
       table_name ∈ table_names →
       override_schemas self !! table_name = Some schema →
       same_enumeration order1 order2
         (@dim_to_join order1 schema column_names) ∧
       same_enumeration order1 order2
         (PySet.add (fact schema)
            (@dim_to_join order1 schema column_names))) →
  @rewrite_sql order1 _ sql_text self = @rewrite_sql order2 _ sql_text self ∧
  (@rewrite_sql order1 _ sql_text self).2 = self.
Proof.
  intros Hsame. split; [| done]. unfold rewrite_sql. f_equal.
  destruct (optimize sql_text) as [tree | e] eqn:Hopt; [| done]. simpl.
  destruct (transform_get_table_and_column_names tree
              (PySet.empty, PySet.empty))
    as ([table_names column_names] & Hextract & _).
  destruct (Hsame tree table_names column_names eq_refl Hextract)
    as (Htables & Hcols & Hsets).
  unfold extract. rewrite Hextract. simpl. case_decide; [done |].
  rewrite (rewrite_tables_same_enumeration order1 order2).
  - by rewrite Htables.
  - done.
  - intros name schema Hin. apply Hsets.
    by rewrite <- (@elem_of_set_iter order1).
Qed.

Lemma rewrite_sql_same_enumeration_witness :
  @rewrite_sql insertion_order example_glot
    "SELECT ID, Severity FROM accidents" accidents_backend
  = @rewrite_sql twice_reversed_order example_glot
      "SELECT ID, Severity FROM accidents" accidents_backend.
Proof.
  refine (proj1 (@rewrite_sql_same_enumeration insertion_order
                   twice_reversed_order example_glot
                   "SELECT ID, Severity FROM accidents" accidents_backend
                   _)).
  intros tree table_names column_names Hopt Hextract.
  change (Ok select_severity = Ok tree) in Hopt. injection Hopt as <-.
  change (Ok (select_severity, (["accidents"], ["ID"; "Severity"]))
          = Ok (select_severity, (table_names, column_names))) in Hextract.
  injection Hextract as <- <-.
  split; [reflexivity |]. split; [reflexivity |].
  intros table_name schema Hin Hschema.
  apply list_elem_of_singleton in Hin. subst table_name.
  change (Some accidents_schema = Some schema) in Hschema.
  injection Hschema as <-.
  split; reflexivity.
Defined.

Lemma rewrite_table_no_dimensions_witness :
  override_schemas flat_backend !! "accidents" = Some flat_schema ∧
  dimension_tables flat_schema = ∅ ∧
  @rewrite_table insertion_order example_glot flat_backend
    ["ID"; "Severity"] select_severity "accidents" = Ok select_severity ∧
  @rewrite_sql insertion_order example_glot
    "SELECT ID, Severity FROM accidents" flat_backend
  = (Ok "ID Severity FROM accidents", flat_backend).
Proof.
  assert (override_schemas flat_backend !! "accidents" = Some flat_schema)
    as Hschema by reflexivity.
  assert (dimension_tables flat_schema = ∅) as Hempty by reflexivity.
  pose proof (@rewrite_table_no_dimensions insertion_order example_glot
                flat_backend "accidents" flat_schema Hschema Hempty)
    as [Hstep Hquery].
  split; [exact Hschema |]. split; [exact Hempty |]. split.
  - apply Hstep.
  - apply (Hquery "SELECT ID, Severity FROM accidents" select_severity
             ["accidents"] ["ID"; "Severity"]).
    + reflexivity.
    + reflexivity.
    + discriminate.
    + intros other Hin. left. apply list_elem_of_singleton in Hin. exact Hin.
Defined.

Lemma rewrite_sql_no_columns_witness :
  override_schemas accidents_backend !! "accidents" = Some accidents_schema ∧
  @rewrite_sql insertion_order example_glot
    "SELECT * FROM accidents LIMIT 5" accidents_backend
  = (Ok "SELECT * FROM accidents LIMIT 5", accidents_backend).
Proof.
  split; [reflexivity |].
  apply (@rewrite_sql_no_columns insertion_order example_glot
           "SELECT * FROM accidents LIMIT 5" accidents_backend
           select_star select_star ["accidents"]).
  - reflexivity.
  - reflexivity.
Defined.

(** The dimension-join rewrite of the specification, on the example. *)
Example rewrite_sql_join :
  (@rewrite_sql insertion_order example_glot
     "SELECT ID, Severity FROM accidents" accidents_backend).1
  = Ok ("ID Severity FROM (SELECT * FROM accidents_dim1,accidents_fact "
        +:+ "WHERE accidents_fact.p1=accidents_dim1.p1) AS accidents").
Proof. reflexivity. Qed.

(** C9, as the specification words it, fails: the text also depends on the
    order in which the interpreter enumerates the sets. For one registry and
    one query text, two legal orders give two different texts. *)
Lemma rewrite_sql_order_counterexample :
  @rewrite_string insertion_order accidents_schema ["ID"; "Severity"]
  = Ok ("FROM (SELECT * FROM accidents_dim1,accidents_fact WHERE "
        +:+ "accidents_fact.p1=accidents_dim1.p1)") ∧
  @rewrite_string reverse_order accidents_schema ["ID"; "Severity"]
  = Ok ("FROM (SELECT * FROM accidents_fact,accidents_dim1 WHERE "
        +:+ "accidents_fact.p1=accidents_dim1.p1)") ∧
  (@rewrite_sql insertion_order example_glot
     "SELECT ID, Severity FROM accidents" accidents_backend).1
  ≠ (@rewrite_sql reverse_order example_glot
       "SELECT ID, Severity FROM accidents" accidents_backend).1.
Proof. split_and!; [reflexivity | reflexivity | by vm_compute]. Qed.

(** * Further properties of the rewriter *)

Section RewriterErrors.
Context {order : SetOrder} {glot : SqlGlot}.

Lemma join_clauses_Raise_inv schema dims e :
  join_clauses schema dims = Raise e →
  ∃ dim, dim ∈ dims ∧ dimension_tables schema !! dim = None ∧
         e = KeyError dim.
Proof.
  induction dims as [| d dims IH]; simpl; [done |].
  unfold join_string at 1, getitem.
  destruct (dimension_tables schema !! d) as [joining_col |] eqn:Hd; simpl.
  - destruct (join_clauses schema dims) as [rest | e'] eqn:Hrest; [done |].
    simpl. intros [= ->]. destruct IH as (dim & Hin & Hnone & ->); [done |].
    exists dim. split; [by right | done].
  - intros [= <-]. exists d. split; [by left | done].
Qed.

Lemma rewrite_string_Raise_inv schema column_names e :
  rewrite_string schema column_names = Raise e →
  ∃ dim, dim ∈ dim_to_join schema column_names ∧
         dimension_tables schema !! dim = None ∧ e = KeyError dim.
Proof.
  unfold rewrite_string. case_decide; [done |].
  destruct (join_clauses schema (set_iter (dim_to_join schema column_names)))
    as [join_strings | e'] eqn:Hrun; [done |].
  simpl. intros [= ->].
  apply join_clauses_Raise_inv in Hrun as (dim & Hin & Hnone & ->).
  rewrite elem_of_set_iter in Hin. eauto.
Qed.

Lemma rewrite_string_Ok_iff schema column_names :
  (∃ text, rewrite_string schema column_names = Ok text)
  ↔ ∀ dim, dim ∈ dim_to_join schema column_names →
      is_Some (dimension_tables schema !! dim).
Proof.
  split.
  - intros [text Htext] dim Hdim.
    pose proof (rewrite_string_inv _ _ _ Htext) as Hkeys.
    rewrite Forall_forall in Hkeys. auto.
  - intros Hkeys.
    destruct (rewrite_string schema column_names) as [text | e] eqn:Hrun;
      [by eexists |].
    apply rewrite_string_Raise_inv in Hrun as (dim & Hin & Hnone & _).
    destruct (Hkeys dim Hin) as [joining_col Hsome]. congruence.
Qed.

(** X1. The text of the replacement FROM clause is built exactly when every
    dimension of the plan has a joining key in [dimension_tables]; otherwise
    the construction raises [KeyError] on a dimension of the plan that has
    none, and nothing else is ever raised. *)
Theorem rewrite_string_KeyError schema column_names :
  ((∃ text, rewrite_string schema column_names = Ok text)
   ↔ ∀ dim, dim ∈ dim_to_join schema column_names →
       is_Some (dimension_tables schema !! dim)) ∧
  (∀ e, rewrite_string schema column_names = Raise e →
     ∃ dim, e = KeyError dim ∧ dim ∈ dim_to_join schema column_names ∧
            dimension_tables schema !! dim = None).
Proof.
  split; [apply rewrite_string_Ok_iff |].
  intros e Hrun.
  apply rewrite_string_Raise_inv in Hrun as (dim & Hin & Hnone & ->).
  eauto.
Qed.

Lemma elem_of_nodes_args (args : list Expression) child node :
  child ∈ args → node ∈ nodes child → node ∈ concat (map nodes args).
Proof.
  intros Hchild Hnode. induction args as [| c args IH]; simpl.
  - by apply elem_of_nil in Hchild.
  - apply elem_of_app. apply elem_of_cons in Hchild as [-> | Hin]; auto.
Qed.

Lemma transform_children_Raise_inv {S}
    (fun_ : Expression → S → result (visit * S)) args :
  ∀ s e, transform_children fun_ args s = Raise e →
    ∃ child s', child ∈ args ∧ transform fun_ child s' = Raise e.
Proof.
  induction args as [| c args IH]; intros s e; simpl; [done |].
  destruct (transform fun_ c s) as [[c' s1] | e'] eqn:Hc.
  - destruct (transform_children fun_ args s1) as [[args' s2] | e'']
      eqn:Hargs; [done |].
    intros [= ->]. destruct (IH _ _ Hargs) as (child & s' & Hin & Hrun).
    exists child, s'. split; [by right | done].
  - intros [= ->]. exists c, s. split; [by left | done].
Qed.

Lemma transform_rewrite_from_Raise_inv table_name rewrite_string tree e :
  transform (rewrite_from table_name rewrite_string) tree () = Raise e →
  ∃ node, node ∈ nodes tree ∧ from_of table_name node ∧
          parse_one (updated rewrite_string node) = Raise e.
Proof.
  induction tree as [tree IH] using Expression_args_ind.
  rewrite transform_unfold, nodes_unfold.
  destruct (decide (from_of table_name tree)) as [Hhit | Hmiss].
  - rewrite rewrite_from_hit by done.
    destruct (parse_one (updated rewrite_string tree)) as [new_node | e']
      eqn:Hparse; [done |].
    simpl. intros [= ->]. exists tree. split; [by left | done].
  - rewrite rewrite_from_Same by done.
    destruct (transform_children _ (args_of tree) ()) as [[args' []] | e']
      eqn:Hargs; [done |].
    intros [= ->].
    apply transform_children_Raise_inv in Hargs
      as (child & [] & Hin & Hrun).
    rewrite Forall_forall in IH.
    destruct (IH child Hin Hrun) as (node & Hnode & Hfrom & Hparse).
    exists node. split; [| done]. right.
    by eapply elem_of_nodes_args.
Qed.

Lemma rewrite_table_Raise_inv self column_names tree table_name e :
  rewrite_table self column_names tree table_name = Raise e →
  ∃ schema,
    override_schemas self !! table_name = Some schema ∧
    dimension_tables schema ≠ ∅ ∧
    ((∃ dim col,
        col ∈ column_names ∧ col_to_table_map schema !! col = Some dim ∧
        dim ≠ fact schema ∧ dimension_tables schema !! dim = None ∧
        e = KeyError dim) ∨
     (∃ rewrite_string' node,
        rewrite_string schema column_names = Ok rewrite_string' ∧
        node ∈ nodes tree ∧ from_of table_name node ∧
        parse_one (updated rewrite_string' node) = Raise e)).
Proof.
  unfold rewrite_table.
  destruct (override_schemas self !! table_name) as [schema |]; [| done].
  case_decide as Hsize; [done |]. intros Hrun.
  exists schema. split; [done |]. split.
  { intros Hempty. by rewrite Hempty, map_size_empty in Hsize. }
  destruct (rewrite_string schema column_names) as [text | e'] eqn:Htext.
  - right. simpl in Hrun.
    destruct (transform (rewrite_from table_name text) tree ())
      as [r | e'] eqn:Htransform; [done |].
    simpl in Hrun. injection Hrun as ->.
    apply transform_rewrite_from_Raise_inv in Htransform
      as (node & Hnode & Hfrom & Hparse).
    exists text, node. done.
  - left. simpl in Hrun. injection Hrun as ->.
    apply rewrite_string_Raise_inv in Htext as (dim & Hin & Hnone & ->).
    apply elem_of_dim_to_join in Hin as (Hne & col & Hcol & Howner).
    exists dim, col. done.
Qed.

Lemma rewrite_tables_Raise_inv self column_names table_names :
  ∀ tree e,
    rewrite_tables self column_names tree table_names = Raise e →
    ∃ before table_name after tree',
      table_names = (before ++ table_name :: after)%list ∧
      rewrite_tables self column_names tree before = Ok tree' ∧
      rewrite_table self column_names tree' table_name = Raise e.
Proof.
  induction table_names as [| table_name table_names IH];
    intros tree e; simpl; [done |].
  destruct (rewrite_table self column_names tree table_name)
    as [tree1 | e'] eqn:Hturn; simpl.
  - intros Hrun.
    destruct (IH _ _ Hrun) as (before & name & after & tree' & -> & Hb & Ht).
    exists (table_name :: before), name, after, tree'.
    split; [done |]. split; [| done]. simpl. by rewrite Hturn.
  - intros [= ->]. exists [], table_name, table_names, tree. done.
Qed.

Lemma rewrite_sql_Raise_inv (sql_text : string) (self : Backend) e :
  (rewrite_sql sql_text self).1 = Raise e →
  optimize sql_text = Raise e ∨
  ∃ expression_tree table_names column_names before table_name after
    tree' schema,
    optimize sql_text = Ok expression_tree ∧
    extract expression_tree
    = Ok (expression_tree, (table_names, column_names)) ∧
    set_iter table_names = (before ++ table_name :: after)%list ∧
    rewrite_tables self column_names expression_tree before = Ok tree' ∧
    override_schemas self !! table_name = Some schema ∧
    dimension_tables schema ≠ ∅ ∧
    ((∃ dim col,
        col ∈ column_names ∧ col_to_table_map schema !! col = Some dim ∧
        dim ≠ fact schema ∧ dimension_tables schema !! dim = None ∧
        e = KeyError dim) ∨
     (∃ rewrite_string' node,
        rewrite_string schema column_names = Ok rewrite_string' ∧
        node ∈ nodes tree' ∧ from_of table_name node ∧
        parse_one (updated rewrite_string' node) = Raise e)).
Proof.
  unfold rewrite_sql. simpl.
  destruct (optimize sql_text) as [tree | e'] eqn:Hopt; simpl;
    [| intros [= ->]; by left].
  destruct (transform_get_table_and_column_names tree
              (PySet.empty, PySet.empty))
    as ([table_names column_names] & Hextract & _).
  unfold extract. rewrite Hextract. simpl. case_decide; [done |].
  destruct (rewrite_tables self column_names tree (set_iter table_names))
    as [tree' | e'] eqn:Hloop; [done |].
  simpl. intros [= ->]. right.
  apply rewrite_tables_Raise_inv in Hloop
    as (before & name & after & tree' & Hnames & Hbefore & Hturn).
  apply rewrite_table_Raise_inv in Hturn
    as (schema & Hschema & Hdims & Hwhy).
  exists tree, table_names, column_names, before, name, after, tree', schema.
  done.
Qed.

(** X2. Whatever [rewrite_sql] raises comes from one of three places. The
    optimizer refused the text. Or, at the turn of a table of the query
    that is registered with dimension tables, the schema gives a column of
    the query an owner that is neither its fact table nor a key of its
    [dimension_tables] ([KeyError] on that owner). Or, at such a turn, the
    parser refused the replacement clause built from that schema for a FROM
    node of that table found in the tree as the earlier turns left it. So
    when the schemas of the tables of the query keep the invariant of the
    data model and the parser accepts their replacement clauses, a query
    the optimizer accepts is rewritten to a text. *)
Theorem rewrite_sql_raises (sql_text : string) (self : Backend) :
  (∀ e, (rewrite_sql sql_text self).1 = Raise e →
     optimize sql_text = Raise e ∨
     ∃ expression_tree table_names column_names before table_name after
       tree' schema,
       optimize sql_text = Ok expression_tree ∧
       extract expression_tree
       = Ok (expression_tree, (table_names, column_names)) ∧
       set_iter table_names = (before ++ table_name :: after)%list ∧
       rewrite_tables self column_names expression_tree before = Ok tree' ∧
       override_schemas self !! table_name = Some schema ∧
       dimension_tables schema ≠ ∅ ∧
       ((∃ dim col,
           col ∈ column_names ∧
           col_to_table_map schema !! col = Some dim ∧
           dim ≠ fact schema ∧ dimension_tables schema !! dim = None ∧
           e = KeyError dim) ∨
        (∃ rewrite_string' node,
           rewrite_string schema column_names = Ok rewrite_string' ∧
           node ∈ nodes tree' ∧ from_of table_name node ∧
           parse_one (updated rewrite_string' node) = Raise e))) ∧
  (∀ expression_tree table_names column_names,
     optimize sql_text = Ok expression_tree →
     extract expression_tree
     = Ok (expression_tree, (table_names, column_names)) →
     (∀ table_name schema,
        table_name ∈ table_names →
        override_schemas self !! table_name = Some schema →
        schema_invariant schema) →
     (∀ table_name schema rewrite_string' node,
        table_name ∈ table_names →
        override_schemas self !! table_name = Some schema →
        rewrite_string schema column_names = Ok rewrite_string' →
        from_of table_name node →
        ∃ new_node,
          parse_one (updated rewrite_string' node) = Ok new_node) →
     ∃ text, (rewrite_sql sql_text self).1 = Ok text).
Proof.
  split; [intros e; apply rewrite_sql_Raise_inv |].
  intros tree table_names column_names Hopt Hextract Hinv Hparse.
  destruct (rewrite_sql sql_text self).1 as [text | e] eqn:Hrun;
    [by eexists |].
  apply rewrite_sql_Raise_inv in Hrun as [Hfail | Hfail]; [congruence |].
  destruct Hfail as (tree0 & tn & cn & before & name & after & tree'
                     & schema & Hopt' & Hextract' & Hnames & _ & Hschema
                     & _ & Hwhy).
  rewrite Hopt in Hopt'. injection Hopt' as <-.
  rewrite Hextract in Hextract'. injection Hextract' as <- <-.
  assert (name ∈ table_names) as Hname.
  { apply elem_of_set_iter. rewrite Hnames.
    apply elem_of_app. right. by left. }
  destruct Hwhy as [(dim & col & _ & Hcol & Hne & Hnone & _)
                   | (rs & node & Hrs & _ & Hfrom & Hfail)].
  - destruct (Hinv name schema Hname Hschema col dim Hcol)
      as [? | [key Hkey]]; congruence.
  - destruct (Hparse name schema rs node Hname Hschema Hrs Hfrom)
      as [new_node Hok]. congruence.
Qed.

End RewriterErrors.

(** X3. The dimensions that are joined, and whether the construction of the
    replacement clause raises, do not depend on the order in which the
    interpreter enumerates the sets: two orders give the same plan up to the
    order of its elements. *)
Theorem dim_to_join_any_order (order1 order2 : SetOrder) schema column_names :
  @dim_to_join order1 schema column_names
  ≡ₚ @dim_to_join order2 schema column_names ∧
  ((∃ text, @rewrite_string order1 schema column_names = Ok text)
   ↔ (∃ text, @rewrite_string order2 schema column_names = Ok text)).
Proof.
  assert (@dim_to_join order1 schema column_names
          ≡ₚ @dim_to_join order2 schema column_names) as Hperm.
  { apply NoDup_Permutation; [apply NoDup_dim_to_join.. |].
    intros dim. by rewrite !elem_of_dim_to_join. }
  split; [exact Hperm |].
  rewrite (@rewrite_string_Ok_iff order1 schema column_names).
  rewrite (@rewrite_string_Ok_iff order2 schema column_names).
  by setoid_rewrite Hperm.
Qed.

(** X4. The plan of a registered table is decided by the bare names of all
    the column references of the whole query: a dimension is joined exactly
    when some column reference anywhere in the tree, whatever its qualifier
    (even the name of another table), bears the name of a column that
    [col_to_table_map] gives to that dimension. *)
Theorem dim_to_join_of_tree `{SetOrder} (schema : Schema)
    (expression_tree : Expression) :
  ∃ table_names column_names,
    extract expression_tree
    = Ok (expression_tree, (table_names, column_names)) ∧
    ∀ dim, dim ∈ dim_to_join schema column_names
      ↔ dim ≠ fact schema ∧
        ∃ col table,
          Column col table ∈ nodes expression_tree ∧
          col_to_table_map schema !! col = Some dim.
Proof.
  destruct (transform_get_table_and_column_names expression_tree
              (PySet.empty, PySet.empty))
    as ([table_names column_names] & Hrun & _ & _ & _ & Hcol).
  exists table_names, column_names. split; [exact Hrun |].
  intros dim. rewrite elem_of_dim_to_join. simpl in Hcol. split.
  - intros (Hne & col & Hin & Howner). split; [done |].
    apply Hcol in Hin as [[]%elem_of_nil | [table Hnode]]. eauto.
  - intros (Hne & col & table & Hnode & Howner). split; [done |].
    exists col. split; [| done]. apply Hcol. eauto.
Qed.

(** X5. Registering a dict of schemas makes the registry the union of that
    dict with the former registry, the new entries winning; so two
    registrations in a row amount to one registration of the union, the
    later dict winning, registering the same dict twice changes nothing
    more, and registering the empty dict changes nothing. *)
Theorem register_schema_union (schema later : gmap string Schema)
    (self : Backend) :
  override_schemas (register_schema schema self)
  = schema ∪ override_schemas self ∧
  register_schema later (register_schema schema self)
  = register_schema (later ∪ schema) self ∧
  register_schema schema (register_schema schema self)
  = register_schema schema self ∧
  register_schema ∅ self = self.
Proof.
  assert (∀ d b, override_schemas (register_schema d b)
                 = d ∪ override_schemas b) as Hunion.
  { intros d b. apply map_eq. intros name.
    rewrite register_schema_lookup, lookup_union.
    destruct (d !! name), (override_schemas b !! name); done. }
  assert (∀ b b', override_schemas b = override_schemas b' → b = b')
    as Hext.
  { intros [m] [m']. simpl. by intros ->. }
  split_and!.
  - apply Hunion.
  - apply Hext. rewrite !Hunion. by rewrite (assoc_L (∪)).
  - apply Hext. rewrite !Hunion.
    by rewrite (assoc_L (∪)), (idemp_L (∪)).
  - apply Hext. rewrite Hunion. by rewrite (left_id_L ∅ (∪)).
Qed.

(** * Flink interval segments *)

(** X6. Whatever the total number of microseconds, also a negative one,
    the segments of a day-to-second interval add up to that total, and all
    of them but the days lie in their clock range: hours below 24, minutes
    and seconds below 60, microseconds below a million, none negative. *)
Theorem days_to_seconds_spec (converted_total : Z) :
  ∃ interval_segments,
    days_to_seconds converted_total = Some interval_segments ∧
    (interval_segments DAY * (86400 * 10 ^ 6)
     + interval_segments HOUR * (3600 * 10 ^ 6)
     + interval_segments MINUTE * (60 * 10 ^ 6)
     + interval_segments SECOND * 10 ^ 6
     + interval_segments MICROSECOND = converted_total)%Z ∧
    (interval_segments DAY = converted_total `div` (86400 * 10 ^ 6))%Z ∧
    (0 ≤ interval_segments HOUR < 24)%Z ∧
    (0 ≤ interval_segments MINUTE < 60)%Z ∧
    (0 ≤ interval_segments SECOND < 60)%Z ∧
    (0 ≤ interval_segments MICROSECOND < 10 ^ 6)%Z ∧
    interval_segments YEAR = 0%Z ∧ interval_segments MONTH = 0%Z.
Proof.
  unfold days_to_seconds, _convert_to_combined_units.
  change (10 ^ 6)%Z with 1000000%Z.
  change (86400 * 1000000)%Z with 86400000000%Z.
  change (3600 * 1000000)%Z with 3600000000%Z.
  change (60 * 1000000)%Z with 60000000%Z.
  cbn [removelast zip zip_with combine_loop list.last].
  repeat case_decide; eexists; (split; [reflexivity |]);
    unfold setitem; repeat (case_decide; try done);
    Z.div_mod_to_equations; lia.
Qed.

(** X7. Whatever the total number of months, also a negative one, the
    segments of a year-to-month interval add up to that total, with the
    months between 0 and 11 and the years the floor of the total over 12. *)
Theorem years_to_months_spec (converted_total : Z) :
  ∃ interval_segments,
    years_to_months converted_total = Some interval_segments ∧
    (interval_segments YEAR * 12 + interval_segments MONTH
     = converted_total)%Z ∧
    (interval_segments YEAR = converted_total `div` 12)%Z ∧
    (0 ≤ interval_segments MONTH < 12)%Z ∧
    ∀ unit, unit ≠ YEAR → unit ≠ MONTH → interval_segments unit = 0%Z.
Proof.
  unfold years_to_months, _convert_to_combined_units.
  cbn [removelast zip zip_with combine_loop list.last].
  repeat case_decide; eexists; (split; [reflexivity |]);
    unfold setitem; split_and!; try intros unit ? ?;
    repeat (case_decide; try done);
    Z.div_mod_to_equations; lia.
Qed.

(** * The record batch readers *)

Ltac cons_contra :=
  exfalso;
  repeat match goal with
         | H : _ ∈ _ :: _ |- _ => apply elem_of_cons in H as [? | ?]
         | H : _ ∉ _ :: _ |- _ => apply not_elem_of_cons in H as [? ?]
         end;
  done.

Lemma pre_execute_loop_spec (tables : list string) :
  ∀ consumed,
    (∀ name,
       (pre_execute_loop tables consumed).2 !! name
       = if decide (name ∈ tables) then (λ _, true) <$> consumed !! name
         else consumed !! name) ∧
    (∀ name, name ∈ (pre_execute_loop tables consumed).1 →
       name ∈ tables ∧ is_Some (consumed !! name)) ∧
    (∀ name, consumed !! name = Some true → name ∈ tables →
       name ∈ (pre_execute_loop tables consumed).1) ∧
    (NoDup tables →
     ∀ name, consumed !! name = Some false →
       name ∉ (pre_execute_loop tables consumed).1).
Proof.
  induction tables as [| t tables IH]; intros consumed.
  - split_and!.
    + intros name. case_decide as Hin; [by apply elem_of_nil in Hin | done].
    + intros name []%elem_of_nil.
    + intros name _ []%elem_of_nil.
    + intros _ name _. apply not_elem_of_nil.
  - cbn [pre_execute_loop]. destruct (consumed !! t) as [[] |] eqn:Ht.
    + destruct (IH consumed) as (Hflags & Hwarned & Htrue & Hfalse).
      destruct (pre_execute_loop tables consumed) as [warned consumed'].
      cbn [fst snd] in *. split_and!.
      * intros name. rewrite Hflags.
        destruct (decide (name = t)) as [-> | Hne].
        -- rewrite Ht. repeat case_decide; try done; cons_contra.
        -- repeat case_decide; try done; cons_contra.
      * intros name [-> | Hin]%elem_of_cons.
        -- split; [by left | by rewrite Ht].
        -- destruct (Hwarned name Hin). split; [by right | done].
      * intros name Hname [-> | Hin]%elem_of_cons; [by left |].
        right. by apply Htrue.
      * intros [Hnin Hnodup]%NoDup_cons name Hname
          [-> | Hin]%elem_of_cons; [congruence |].
        by eapply Hfalse.
    + destruct (IH (<[t := true]> consumed))
        as (Hflags & Hwarned & Htrue & Hfalse).
      destruct (pre_execute_loop tables (<[t := true]> consumed))
        as [warned consumed'].
      cbn [fst snd] in *. split_and!.
      * intros name. rewrite Hflags.
        destruct (decide (name = t)) as [-> | Hne].
        -- rewrite lookup_insert_eq, Ht. repeat case_decide; try done; cons_contra.
        -- rewrite lookup_insert_ne by done.
           repeat case_decide; try done; cons_contra.
      * intros name Hin. destruct (Hwarned name Hin) as [Htab Hsome].
        split; [by right |].
        destruct (decide (name = t)) as [-> | Hne]; [by rewrite Ht |].
        by rewrite lookup_insert_ne in Hsome.
      * intros name Hname [-> | Hin]%elem_of_cons; [congruence |].
        apply Htrue; [| done].
        rewrite lookup_insert_ne; [done | congruence].
      * intros [Hnin Hnodup]%NoDup_cons name Hname Hin.
        destruct (decide (name = t)) as [-> | Hne].
        -- by destruct (Hwarned t Hin).
        -- eapply (Hfalse Hnodup name); [| done].
           by rewrite lookup_insert_ne.
    + destruct (IH consumed) as (Hflags & Hwarned & Htrue & Hfalse).
      destruct (pre_execute_loop tables consumed) as [warned consumed'].
      cbn [fst snd] in *. split_and!.
      * intros name. rewrite Hflags.
        destruct (decide (name = t)) as [-> | Hne].
        -- rewrite Ht. repeat case_decide; try done; cons_contra.
        -- repeat case_decide; try done; cons_contra.
      * intros name Hin. destruct (Hwarned name Hin).
        split; [by right | done].
      * intros name Hname [-> | Hin]%elem_of_cons; [congruence |].
        by apply Htrue.
      * intros [Hnin Hnodup]%NoDup_cons name Hname. by apply Hfalse.
Qed.

(** X8. One run of the loop of [_run_pre_execute_hooks] neither adds an
    entry to [_record_batch_readers_consumed] nor removes one: the tables of
    the expression that have an entry end up marked as started, every other
    entry is left as it was. The loop warns only about tables of the
    expression that have an entry, it warns about each of them that was
    already marked as started, and it does not warn about a table that was
    not yet started when the expression names it once. *)
Theorem pre_execute_loop_marks (tables : list string)
    (consumed : gmap string bool) :
  (∀ name,
     (pre_execute_loop tables consumed).2 !! name
     = if decide (name ∈ tables) then (λ _, true) <$> consumed !! name
       else consumed !! name) ∧
  (∀ name, is_Some ((pre_execute_loop tables consumed).2 !! name)
     ↔ is_Some (consumed !! name)) ∧
  (∀ name, name ∈ (pre_execute_loop tables consumed).1 →
     name ∈ tables ∧ is_Some (consumed !! name)) ∧
  (∀ name, consumed !! name = Some true → name ∈ tables →
     name ∈ (pre_execute_loop tables consumed).1) ∧
  (NoDup tables →
   ∀ name, consumed !! name = Some false →
     name ∉ (pre_execute_loop tables consumed).1).
Proof.
  destruct (pre_execute_loop_spec tables consumed)
    as (Hflags & Hwarned & Htrue & Hfalse).
  split_and!; try done.
  intros name. rewrite Hflags. case_decide; [| done].
  by rewrite fmap_is_Some.
Qed.

Lemma pre_execute_loop_count (tables : list string) (name : string) :
  ∀ consumed,
    length (filter (λ warned, warned = name)
              (pre_execute_loop tables consumed).1)
    = match consumed !! name with
      | Some true => length (filter (λ table, table = name) tables)
      | Some false => length (filter (λ table, table = name) tables) - 1
      | None => 0
      end.
Proof.
  induction tables as [| t tables IH]; intros consumed.
  - simpl. by destruct (consumed !! name) as [[] |].
  - cbn [pre_execute_loop]. destruct (consumed !! t) as [[] |] eqn:Ht.
    + specialize (IH consumed).
      destruct (pre_execute_loop tables consumed) as [warned consumed'].
      cbn [fst] in *. destruct (decide (t = name)) as [-> | Hne].
      * rewrite !filter_cons_True by done. simpl. rewrite IH, Ht. done.
      * rewrite !filter_cons_False by done. exact IH.
    + rewrite IH. destruct (decide (t = name)) as [-> | Hne].
      * rewrite lookup_insert_eq, Ht, filter_cons_True by done.
        simpl. lia.
      * rewrite lookup_insert_ne by done.
        by rewrite filter_cons_False by done.
    + rewrite IH. destruct (decide (t = name)) as [-> | Hne].
      * rewrite Ht. done.
      * by rewrite filter_cons_False by done.
Qed.

(** X9. For a table registered from a record batch reader, the first
    execution that names it warns about it once less than its expression
    lists it, so not at all when it lists it once, and every later
    execution warns once per listing. Registering a new reader under the
    same name starts over; but registering another kind of source under
    that name leaves the mark, so the next execution still warns once per
    listing. *)
Theorem record_batch_reader_lifecycle (name : string)
    (tables tables' : list string) (consumed : gmap string bool) :
  name ∈ tables →
  let registered := read_in_memory_mark true name consumed in
  let after_first := (pre_execute_loop tables registered).2 in
  let listed (l : list string) := length (filter (λ x, x = name) l) in
  listed (pre_execute_loop tables registered).1 = listed tables - 1 ∧
  (listed tables = 1 → name ∉ (pre_execute_loop tables registered).1) ∧
  listed (pre_execute_loop tables' after_first).1 = listed tables' ∧
  (name ∈ tables' → name ∈ (pre_execute_loop tables' after_first).1) ∧
  listed (pre_execute_loop tables'
            (read_in_memory_mark true name after_first)).1
  = listed tables' - 1 ∧
  listed (pre_execute_loop tables'
            (read_in_memory_mark false name after_first)).1
  = listed tables'.
Proof.
  intros Hin. simpl.
  assert ((pre_execute_loop tables (<[name := false]> consumed)).2 !! name
          = Some true) as Hmarked.
  { destruct (pre_execute_loop_spec tables (<[name := false]> consumed))
      as (Hflags & _).
    rewrite Hflags, decide_True by done. by rewrite lookup_insert_eq. }
  assert (∀ l : list string,
            name ∈ l ↔ length (filter (λ x, x = name) l) ≠ 0) as Hlisted.
  { intros l. split.
    - intros Hl Hnil. apply nil_length_inv in Hnil.
      assert (name ∈ filter (λ x, x = name) l) as Hf
        by (by apply list_elem_of_filter).
      rewrite Hnil in Hf. by apply elem_of_nil in Hf.
    - intros Hne.
      destruct (filter (λ x, x = name) l) as [| x f] eqn:Hf; [done |].
      assert (x ∈ filter (λ x, x = name) l) as Hx
        by (rewrite Hf; by left).
      apply list_elem_of_filter in Hx as [-> Hx]. done. }
  split_and!.
  - by rewrite pre_execute_loop_count, lookup_insert_eq.
  - intros Hone Hwarned. apply Hlisted in Hwarned. apply Hwarned.
    rewrite pre_execute_loop_count, lookup_insert_eq. lia.
  - by rewrite pre_execute_loop_count, Hmarked.
  - intros Hin'. apply Hlisted.
    rewrite pre_execute_loop_count, Hmarked. by apply Hlisted.
  - by rewrite pre_execute_loop_count, lookup_insert_eq.
  - by rewrite pre_execute_loop_count, Hmarked.
Qed.

Lemma record_batch_reader_lifecycle_witness :
  ("t" ∉ (pre_execute_loop ["s"; "t"]
            (read_in_memory_mark true "t" ∅)).1) ∧
  ("t" ∈ (pre_execute_loop ["t"; "t"]
            (pre_execute_loop ["s"; "t"]
               (read_in_memory_mark true "t" ∅)).2).1).
Proof.
  assert ("t" ∈ ["s"; "t"]) as Hin by (right; left).
  assert ("t" ∈ ["t"; "t"]) as Hin' by left.
  pose proof (record_batch_reader_lifecycle "t" ["s"; "t"] ["t"; "t"] ∅
                Hin) as (_ & Hfirst & _ & Hsecond & _ & _).
  split; [apply Hfirst; reflexivity | apply Hsecond; exact Hin'].
Defined.

(** * The dispatch of [register] *)

Lemma has_suffix_cons suffix a s :
  String a s ≠ suffix →
  has_suffix suffix (String a s) = has_suffix suffix s.
Proof.
  intros Hne. cbn [has_suffix]. case_decide; [congruence | reflexivity].
Qed.

Lemma has_suffix_intro suffix y : has_suffix suffix (y +:+ suffix) = true.
Proof.
  induction y as [| a y IH].
  - change (has_suffix suffix suffix = true).
    destruct suffix; cbn [has_suffix];
      [reflexivity | case_decide; [reflexivity | congruence]].
  - change (has_suffix suffix (String a (y +:+ suffix)) = true).
    cbn [has_suffix]. case_decide; [reflexivity | exact IH].
Qed.

Lemma has_suffix_elim suffix s :
  has_suffix suffix s = true → ∃ y, s = y +:+ suffix.
Proof.
  induction s as [| a s IH]; cbn [has_suffix].
  - case_decide as Heq; [| done]. intros _. exists "". by subst.
  - case_decide as Heq.
    + intros _. exists "". by subst.
    + intros [y ->]%IH. by exists (String a y).
Qed.

Lemma list_ascii_of_string_app s1 s2 :
  String.list_ascii_of_string (s1 +:+ s2)
  = (String.list_ascii_of_string s1
     ++ String.list_ascii_of_string s2)%list.
Proof.
  induction s1 as [| a s1 IH]; [done |].
  change (String.list_ascii_of_string (String a (s1 +:+ s2))
          = ((a :: String.list_ascii_of_string s1)
             ++ String.list_ascii_of_string s2)%list).
  simpl. by rewrite IH.
Qed.

Lemma string_app_assoc (s1 s2 s3 : string) :
  s1 +:+ s2 +:+ s3 = (s1 +:+ s2) +:+ s3.
Proof.
  induction s1 as [| a s1 IH]; [done |].
  change (String a (s1 +:+ s2 +:+ s3) = String a ((s1 +:+ s2) +:+ s3)).
  by rewrite IH.
Qed.

Lemma has_suffix_last suffix s a b :
  a ≠ b → has_suffix (suffix +:+ String b "") (s +:+ String a "") = false.
Proof.
  intros Hne.
  destruct (has_suffix (suffix +:+ String b "") (s +:+ String a ""))
    eqn:Hsuffix; [| done].
  apply has_suffix_elim in Hsuffix as [y Heq].
  apply (f_equal String.list_ascii_of_string) in Heq.
  rewrite string_app_assoc, !list_ascii_of_string_app in Heq. simpl in Heq.
  apply (f_equal list.last) in Heq. rewrite !last_snoc in Heq. congruence.
Qed.

Lemma endswith_intro (suffixes : list string) suffix y :
  suffix ∈ suffixes → endswith (y +:+ suffix) suffixes = true.
Proof.
  intros Hin. apply existsb_exists. exists suffix.
  split; [by apply list_elem_of_In | apply has_suffix_intro].
Qed.

Lemma endswith_last (suffixes : list string) s a :
  Forall (λ suffix, ∃ pre b, suffix = pre +:+ String b "" ∧ a ≠ b)
    suffixes →
  endswith (s +:+ String a "") suffixes = false.
Proof.
  induction 1 as [| suffix suffixes (pre & b & -> & Hne) _ IH]; [done |].
  unfold endswith in *. cbn [existsb]. by rewrite has_suffix_last, IH.
Qed.

Lemma prefix_app (s p : string) : String.prefix s (s +:+ p) = true.
Proof.
  induction s as [| a s IH].
  - by destruct p.
  - change (String.prefix (String a s) (String a (s +:+ p)) = true).
    simpl. by destruct (Ascii.ascii_dec a a).
Qed.

Lemma endswith_sqlite (suffixes : list string) p :
  Forall (λ suffix,
            has_suffix suffix ("sqlite://" +:+ p) = has_suffix suffix p)
    suffixes →
  endswith ("sqlite://" +:+ p) suffixes = endswith p suffixes.
Proof.
  induction 1 as [| suffix suffixes Heq _ IH]; [done |].
  unfold endswith in *. cbn [existsb]. by rewrite Heq, IH.
Qed.

Ltac sqlite_suffix :=
  cbv [String.append];
  repeat (rewrite has_suffix_cons by congruence);
  reflexivity.

Section RegisterProperties.
Context {Obj Kwargs Table : Type} {readers : Readers Obj Kwargs Table}.

(** X10. In [register] the file suffix is looked at before the scheme of the
    URI: a source whose first path ends in [parquet] or [parq] is handed to
    [read_parquet] whatever comes before, and a [sqlite://] or [postgres://]
    URI whose path ends in [.csv] is handed, scheme included, to
    [read_csv], not to the reader of its scheme. For a list only the first
    path is looked at. *)
Theorem register_suffix_first (x : string) (rest : list string)
    (table_name : option string) (kwargs : Kwargs) :
  register (SourceStr (x +:+ "parquet")) table_name kwargs
  = read_parquet (SourceStr (x +:+ "parquet")) table_name kwargs ∧
  register (SourceStr (x +:+ "parq")) table_name kwargs
  = read_parquet (SourceStr (x +:+ "parq")) table_name kwargs ∧
  register (SourceList ((x +:+ "parquet") :: rest)) table_name kwargs
  = read_parquet (SourceList ((x +:+ "parquet") :: rest)) table_name kwargs ∧
  register (SourceStr ("sqlite://" +:+ x +:+ ".csv")) table_name kwargs
  = read_csv (SourceStr ("sqlite://" +:+ x +:+ ".csv")) table_name kwargs ∧
  register (SourceStr ("postgres://" +:+ x +:+ ".csv")) table_name kwargs
  = read_csv (SourceStr ("postgres://" +:+ x +:+ ".csv")) table_name kwargs.
Proof.
  assert (endswith (x +:+ "parquet") ["parq"; "parquet"] = true)
    as Hparquet by (apply endswith_intro; set_solver).
  assert (endswith (x +:+ "parq") ["parq"; "parquet"] = true)
    as Hparq by (apply endswith_intro; set_solver).
  assert (∀ scheme,
            endswith (scheme +:+ x +:+ ".csv") ["parq"; "parquet"] = false)
    as Hnot.
  { intros scheme.
    replace (scheme +:+ x +:+ ".csv")
      with ((scheme +:+ x +:+ ".cs") +:+ "v")
      by (by rewrite <- !string_app_assoc).
    apply endswith_last. repeat apply Forall_cons_2; [| | apply Forall_nil_2].
    - exists "par". eexists. split; [reflexivity | discriminate].
    - exists "parque". eexists. split; [reflexivity | discriminate]. }
  assert (∀ scheme,
            endswith (scheme +:+ x +:+ ".csv")
              ["csv"; "csv.gz"; "tsv"; "tsv.gz"; "txt"; "txt.gz"] = true)
    as Hcsv.
  { intros scheme.
    replace (scheme +:+ x +:+ ".csv")
      with ((scheme +:+ x +:+ ".") +:+ "csv")
      by (by rewrite <- !string_app_assoc).
    apply endswith_intro. set_solver. }
  unfold register, register_first. split_and!.
  - by rewrite Hparquet, orb_true_r.
  - by rewrite Hparq, orb_true_r.
  - by rewrite Hparquet, orb_true_r.
  - rewrite Hnot, Hcsv, orb_true_r.
    assert (startswith ("sqlite://" +:+ x +:+ ".csv")
              ["parquet://"; "parq://"] = false) as -> by (by vm_compute).
    done.
  - rewrite Hnot, Hcsv, orb_true_r.
    assert (startswith ("postgres://" +:+ x +:+ ".csv")
              ["parquet://"; "parq://"] = false) as -> by (by vm_compute).
    done.
Qed.

(** X11. A [sqlite://] URI whose path ends in none of the suffixes of the
    parquet and CSV readers is handed to [read_sqlite] with the scheme cut
    off; of a list only the first path is used, the other paths are dropped;
    and an empty list raises [IndexError]. *)
Theorem register_sqlite (p : string) (rest : list string)
    (table_name : option string) (kwargs : Kwargs) :
  endswith p ["parq"; "parquet"] = false →
  endswith p ["csv"; "csv.gz"; "tsv"; "tsv.gz"; "txt"; "txt.gz"] = false →
  register (SourceStr ("sqlite://" +:+ p)) table_name kwargs
  = read_sqlite p table_name kwargs ∧
  register (SourceList (("sqlite://" +:+ p) :: rest)) table_name kwargs
  = read_sqlite p table_name kwargs ∧
  register (SourceList []) table_name kwargs = Throw IndexError.
Proof.
  intros Hparquet Hcsv.
  assert (register_first ("sqlite://" +:+ p)
          = λ _ table_name kwargs, read_sqlite p table_name kwargs) as Hfirst.
  { unfold register_first.
    rewrite (endswith_sqlite ["parq"; "parquet"]), Hparquet
      by (repeat apply Forall_cons_2; [.. | apply Forall_nil_2];
          sqlite_suffix).
    rewrite (endswith_sqlite
               ["csv"; "csv.gz"; "tsv"; "tsv.gz"; "txt"; "txt.gz"]), Hcsv
      by (repeat apply Forall_cons_2; [.. | apply Forall_nil_2];
          sqlite_suffix).
    assert (startswith ("sqlite://" +:+ p) ["parquet://"; "parq://"]
            = false) as -> by (by vm_compute).
    assert (startswith ("sqlite://" +:+ p)
              ["csv://"; "csv.gz://"; "txt://"; "txt.gz://"] = false)
      as -> by (by vm_compute).
    assert (startswith ("sqlite://" +:+ p) ["postgres://"; "postgresql://"]
            = false) as -> by (by vm_compute).
    assert (startswith ("sqlite://" +:+ p) ["sqlite://"] = true) as ->.
    { unfold startswith. simpl. by rewrite prefix_app. }
    reflexivity. }
  unfold register. rewrite Hfirst. done.
Qed.

End RegisterProperties.

Lemma register_sqlite_witness :
  endswith "ibis_testing.db" ["parq"; "parquet"] = false ∧
  @register unit unit string example_readers
    (SourceStr "sqlite://ibis_testing.db") (Some "diamonds") ()
  = Return "read_sqlite ibis_testing.db".
Proof.
  assert (endswith "ibis_testing.db" ["parq"; "parquet"] = false)
    as Hparquet by reflexivity.
  split; [exact Hparquet |].
  refine (proj1 (@register_sqlite unit unit string example_readers
                   "ibis_testing.db" [] (Some "diamonds") () Hparquet _)).
  reflexivity.
Defined.

Lemma rewrite_sql_raises_witness :
  (@rewrite_sql insertion_order example_glot
     "SELECT ID, Severity FROM accidents" broken_backend).1
  = Raise (KeyError "accidents_dim1") ∧
  ∃ text,
    (@rewrite_sql insertion_order example_glot
       "SELECT ID, Severity FROM accidents" accidents_backend).1 = Ok text.
Proof.
  assert ((@rewrite_sql insertion_order example_glot
             "SELECT ID, Severity FROM accidents" broken_backend).1
          = Raise (KeyError "accidents_dim1")) as Hrun by reflexivity.
  split; [exact Hrun |].
  pose proof (proj1 (@rewrite_sql_raises insertion_order example_glot
                       "SELECT ID, Severity FROM accidents" broken_backend)
                (KeyError "accidents_dim1") Hrun) as _.
  refine (proj2 (@rewrite_sql_raises insertion_order example_glot
                   "SELECT ID, Severity FROM accidents" accidents_backend)
            select_severity ["accidents"] ["ID"; "Severity"] _ _ _ _).
  - reflexivity.
  - reflexivity.
  - intros table_name schema Hin Hschema.
    apply list_elem_of_singleton in Hin. subst table_name.
    change (Some accidents_schema = Some schema) in Hschema.
    injection Hschema as <-.
    apply (bool_decide_unpack _). vm_compute. exact I.
  - intros table_name schema rs node _ _ _ _. eexists. reflexivity.
Defined.



